(** * SubsonicScrobbleRequest: the bounded scrobble queue of Strawberry

    A shallow embedding of [src/subsonic/subsonicscrobblerequest.cpp].

    The object keeps a FIFO backlog of scrobble requests, sends at most
    [kMaxConcurrentScrobbleRequests] of them at a time, and reads each reply
    for a Subsonic error document.  The member functions are written here as
    functions on an explicit state; the loops take fuel, and the fuel handed
    to them by the callers is shown to be enough.

    Layout: Qt value types (QString::arg, QJsonValue), the object and the
    network around it, the member functions, then the properties. *)

From Stdlib Require Import ZArith List Bool Ascii String Lia.
From Stdlib Require Import QArith_base DecimalString.
From Stdlib Require DecimalZ DecimalPos.
Import ListNotations.

Local Open Scope string_scope.
Local Open Scope list_scope.
Local Open Scope Z_scope.

Set Warnings "-register-all".

(** ** Qt value types *)

(** QString and QByteArray are modelled by [string]; the texts this file
    handles are ASCII. *)
Abbreviation QString := string (only parsing).
Abbreviation QByteArray := string (only parsing).

Module QStr.

Definition isEmpty (s : string) : bool :=
  match s with EmptyString => true | String _ _ => false end.

(** QString::number(n) / QVariant(qlonglong).toString(): decimal, C locale. *)
Definition number (n : Z) : string := NilZero.string_of_int (Z.to_int n).

(** QChar::digitValue() on the ASCII digits. *)
Definition digitValue (c : ascii) : option nat :=
  let n := nat_of_ascii c in
  if (48 <=? n)%nat && (n <=? 57)%nat then Some (n - 48)%nat else None.

(** *** Place markers

    [QString::arg] replaces the lowest-numbered place marker of the
    receiver.  A marker is [%], an optional [L], and one or two digits
    (findArgEscapes in qstring.cpp).  The scanner below cuts a string into
    plain characters and markers; a marker keeps its own text, since the
    markers that are not replaced are copied as they are. *)
Inductive ArgToken : Type :=
| Text (c : ascii)
| Escape (locale_arg : bool) (escape : nat) (text : string).

Inductive ScanState : Type :=
| Plain                                   (* outside a marker *)
| Percent                                 (* after "%" *)
| PercentL                                (* after "%L" *)
| Digit (locale_arg : bool) (d : nat) (text : string). (* after one digit *)

Definition percent : ascii := "%"%char.
Definition letterL : ascii := "L"%char.

(** What is pending when the string ends inside a would-be marker. *)
Definition flushScan (st : ScanState) : list ArgToken :=
  match st with
  | Plain => []
  | Percent => [Text percent]
  | PercentL => [Text percent; Text letterL]
  | Digit l d t => [Escape l d t]
  end.

Fixpoint scanEscapes (st : ScanState) (s : string) : list ArgToken :=
  match s with
  | EmptyString => flushScan st
  | String c rest =>
      (* the scan resumes at [c] in the plain state *)
      let resume :=
        if Ascii.eqb c percent then scanEscapes Percent rest
        else Text c :: scanEscapes Plain rest in
      match st with
      | Plain => resume
      | Percent =>
          if Ascii.eqb c letterL then scanEscapes PercentL rest
          else match digitValue c with
               | Some d => scanEscapes (Digit false d (String percent (String c ""))) rest
               | None => Text percent :: resume
               end
      | PercentL =>
          match digitValue c with
          | Some d =>
              scanEscapes (Digit true d (String percent (String letterL (String c "")))) rest
          | None => Text percent :: Text letterL :: resume
          end
      | Digit l d t =>
          match digitValue c with
          | Some d2 => Escape l (10 * d + d2) (t ++ String c "") :: scanEscapes Plain rest
          | None => Escape l d t :: resume
          end
      end
  end.

(** ArgEscapeData::min_escape, [None] when the string has no marker. *)
Fixpoint min_escape (ts : list ArgToken) : option nat :=
  match ts with
  | [] => None
  | Text _ :: ts' => min_escape ts'
  | Escape _ n _ :: ts' =>
      match min_escape ts' with
      | None => Some n
      | Some m => Some (Nat.min n m)
      end
  end.

(** replaceArgEscapes with field width 0: every marker numbered [m] becomes
    [a] (or [la] when it carries the [L] flag), the rest is copied. *)
Fixpoint replaceArgEscapes (ts : list ArgToken) (m : nat) (a la : string) : string :=
  match ts with
  | [] => ""
  | Text c :: ts' => String c (replaceArgEscapes ts' m a la)
  | Escape l n t :: ts' =>
      (if Nat.eqb n m then (if l then la else a) else t)
        ++ replaceArgEscapes ts' m a la
  end.

Definition arg_with (s a la : string) : string :=
  let ts := scanEscapes Plain s in
  match min_escape ts with
  | None => s                 (* "QString::arg: Argument missing", unchanged *)
  | Some m => replaceArgEscapes ts m a la
  end.

(** QString::arg(const QString &a). *)
Definition arg (s a : string) : string := arg_with s a a.

End QStr.

(** A JSON number is kept as the rational it denotes. *)
Inductive QJsonValue : Type :=
| JNull
| JBool (b : bool)
| JDouble (d : Q)
| JString (s : QString)
| JArray (a : list QJsonValue)
| JObject (o : list (string * QJsonValue))
| JUndefined.

Definition QJsonObject := list (string * QJsonValue).

Module Json.

Definition isEmpty (o : QJsonObject) : bool :=
  match o with [] => true | _ :: _ => false end.

Fixpoint contains (o : QJsonObject) (key : string) : bool :=
  match o with
  | [] => false
  | (k, _) :: o' => if String.eqb k key then true else contains o' key
  end.

(** QJsonObject::operator[](key) const: the value, or Undefined. *)
Fixpoint value (o : QJsonObject) (key : string) : QJsonValue :=
  match o with
  | [] => JUndefined
  | (k, v) :: o' => if String.eqb k key then v else value o' key
  end.

Definition isObject (v : QJsonValue) : bool :=
  match v with JObject _ => true | _ => false end.

Definition isDouble (v : QJsonValue) : bool :=
  match v with JDouble _ => true | _ => false end.

Definition isString (v : QJsonValue) : bool :=
  match v with JString _ => true | _ => false end.

(** QJsonValue::toObject(): an empty object unless the value is one. *)
Definition toObject (v : QJsonValue) : QJsonObject :=
  match v with JObject o => o | _ => [] end.

(** QJsonValue::toString(): an empty string unless the value is one. *)
Definition toString (v : QJsonValue) : QString :=
  match v with JString s => s | _ => "" end.

Definition INT_MIN : Z := - 2 ^ 31.
Definition INT_MAX : Z := 2 ^ 31 - 1.

(** QJsonValue::toInt(defaultValue = 0): the number when the value is a
    whole number that fits an int, the default otherwise. *)
Definition toInt (v : QJsonValue) : Z :=
  match v with
  | JDouble d =>
      let n := Qnum d / Zpos (Qden d) in
      if (Qnum d mod Zpos (Qden d) =? 0) && (INT_MIN <=? n) && (n <=? INT_MAX)
      then n else 0
  | _ => 0
  end.

End Json.


(** ** The object and the network around it *)

(** A [QNetworkReply *] is a handle; the replies live in the network layer. *)
Definition QNetworkReply := nat.

(** [start_time.toMSecsSinceEpoch()] is all the code reads of a QDateTime. *)
Record QDateTime : Type := { toMSecsSinceEpoch : Z }.

(** [struct Request] of subsonicscrobblerequest.h. *)
Record Request : Type := {
  song_id : QString;
  submission : bool;
  time_ms : Z
}.

Definition Param : Type := QString * QString.
Definition ParamList : Type := list Param.

(** What the object asks of the network layer, in the order it asks it. *)
Inductive NetOp : Type :=
| OpGet (reply : QNetworkReply) (resource : QString) (params : ParamList)
| OpConnect (reply : QNetworkReply)
| OpDisconnect (reply : QNetworkReply)
| OpAbort (reply : QNetworkReply)
| OpDeleteLater (reply : QNetworkReply).

(** A QVariant is either invalid or holds the JSON object handed to Error. *)
Definition QVariant := option QJsonObject.

Inductive LogLine : Type :=
| LogError (text : QString)
| LogDebug (debug : QJsonObject).

(** The four data members, then the surroundings the member functions act
    on: the log of qLog, the network layer's next reply handle, the replies
    whose finished() signal is connected to this object, the replies still
    running, and the journal of calls made to the network layer. *)
Record State : Type := mkState {
  scrobble_requests_queue_ : list Request;
  scrobble_requests_active_ : Z;
  replies_ : list QNetworkReply;
  errors_ : list QString;
  qLog : list LogLine;
  next_reply : QNetworkReply;
  connected : list QNetworkReply;
  running : list QNetworkReply;
  journal : list NetOp
}.

Definition set_queue (q : list Request) (st : State) : State :=
  mkState q (scrobble_requests_active_ st) (replies_ st) (errors_ st) (qLog st)
          (next_reply st) (connected st) (running st) (journal st).

Definition set_active (n : Z) (st : State) : State :=
  mkState (scrobble_requests_queue_ st) n (replies_ st) (errors_ st) (qLog st)
          (next_reply st) (connected st) (running st) (journal st).

Definition set_replies (l : list QNetworkReply) (st : State) : State :=
  mkState (scrobble_requests_queue_ st) (scrobble_requests_active_ st) l (errors_ st)
          (qLog st) (next_reply st) (connected st) (running st) (journal st).

Definition set_errors (l : list QString) (st : State) : State :=
  mkState (scrobble_requests_queue_ st) (scrobble_requests_active_ st) (replies_ st) l
          (qLog st) (next_reply st) (connected st) (running st) (journal st).

Definition write_log (line : LogLine) (st : State) : State :=
  mkState (scrobble_requests_queue_ st) (scrobble_requests_active_ st) (replies_ st)
          (errors_ st) (qLog st ++ [line]) (next_reply st) (connected st) (running st)
          (journal st).

Definition set_next_reply (n : QNetworkReply) (st : State) : State :=
  mkState (scrobble_requests_queue_ st) (scrobble_requests_active_ st) (replies_ st)
          (errors_ st) (qLog st) n (connected st) (running st) (journal st).

Definition set_connected (l : list QNetworkReply) (st : State) : State :=
  mkState (scrobble_requests_queue_ st) (scrobble_requests_active_ st) (replies_ st)
          (errors_ st) (qLog st) (next_reply st) l (running st) (journal st).

Definition set_running (l : list QNetworkReply) (st : State) : State :=
  mkState (scrobble_requests_queue_ st) (scrobble_requests_active_ st) (replies_ st)
          (errors_ st) (qLog st) (next_reply st) (connected st) l (journal st).

Definition record (op : NetOp) (st : State) : State :=
  mkState (scrobble_requests_queue_ st) (scrobble_requests_active_ st) (replies_ st)
          (errors_ st) (qLog st) (next_reply st) (connected st) (running st)
          (journal st ++ [op]).

(** [int] arithmetic: the result of [++] and [--] on a 32-bit int. *)
Definition int_wrap (z : Z) : Z := (z + 2 ^ 31) mod 2 ^ 32 - 2 ^ 31.

(** QList::contains and QList::removeAll on reply handles. *)
Definition contains (l : list QNetworkReply) (reply : QNetworkReply) : bool :=
  existsb (Nat.eqb reply) l.

Definition removeAll (l : list QNetworkReply) (reply : QNetworkReply) : list QNetworkReply :=
  filter (fun r => negb (Nat.eqb reply r)) l.

(** *** The network layer *)

(** Modelled from the spec: SubsonicBaseRequest::CreateGetRequest is defined
    in subsonicbaserequest.cpp.  The spec (6, Transport) has it start the
    operation and return its handle; here the network layer hands out the
    next handle, so a new reply differs from every earlier one, and the
    reply is running from then on. *)
Definition CreateGetRequest (resource : QString) (params : ParamList) (st : State)
  : QNetworkReply * State :=
  let reply := next_reply st in
  (reply,
   record (OpGet reply resource params)
     (set_running (running st ++ [reply]) (set_next_reply (S reply) st))).

(** QObject::connect(reply, &QNetworkReply::finished, this, ...). *)
Definition connect (reply : QNetworkReply) (st : State) : State :=
  record (OpConnect reply) (set_connected (connected st ++ [reply]) st).

(** QObject::disconnect(reply, nullptr, this, nullptr): every connection
    from [reply] to this object is dropped. *)
Definition disconnect (reply : QNetworkReply) (st : State) : State :=
  record (OpDisconnect reply) (set_connected (removeAll (connected st) reply) st).

Definition deleteLater (reply : QNetworkReply) (st : State) : State :=
  record (OpDeleteLater reply) st.

Definition isRunning (reply : QNetworkReply) (st : State) : bool :=
  contains (running st) reply.

(** ** Member functions *)

Definition kMaxConcurrentScrobbleRequests : Z := 3.

(** The constructor: no request active, nothing queued, no reply. *)
Definition SubsonicScrobbleRequest : State :=
  mkState [] 0 [] [] [] O [] [] [].

(** QVariant(bool).toString(). *)
Definition bool_toString (b : bool) : QString := if b then "true" else "false".

(** The body of the loop of FlushScrobbleRequests (lines 75-84), entered
    with [request] at the head of the queue and [rest] behind it. *)
Definition FlushStep (request : Request) (rest : list Request) (st : State) : State :=
  let st := set_queue rest st in
  let st := set_active (int_wrap (scrobble_requests_active_ st + 1)) st in
  let params : ParamList :=
    [ ("id", song_id request);
      ("submission", bool_toString (submission request));
      ("time", QStr.number (time_ms request)) ] in
  let (reply, st) := CreateGetRequest "scrobble" params st in
  let st := set_replies (replies_ st ++ [reply]) st in
  connect reply st.

Fixpoint FlushLoop (fuel : nat) (st : State) : State :=
  match fuel with
  | O => st
  | S fuel' =>
      match scrobble_requests_queue_ st with
      | [] => st
      | request :: rest =>
          if scrobble_requests_active_ st <? kMaxConcurrentScrobbleRequests
          then FlushLoop fuel' (FlushStep request rest st)
          else st
      end
  end.

(** Each turn of the loop takes one request off the queue, so the length of
    the queue is fuel enough ([FlushLoop_exit] below). *)
Definition FlushScrobbleRequests (st : State) : State :=
  FlushLoop (List.length (scrobble_requests_queue_ st)) st.

Definition CreateScrobbleRequest (song : QString) (submit : bool) (start_time : QDateTime)
                                 (st : State) : State :=
  let request := {| song_id := song; submission := submit;
                    time_ms := toMSecsSinceEpoch start_time |} in
  let st := set_queue (scrobble_requests_queue_ st ++ [request]) st in
  if scrobble_requests_active_ st <? kMaxConcurrentScrobbleRequests
  then FlushScrobbleRequests st else st.

Definition FinishCheck (st : State) : State :=
  match scrobble_requests_queue_ st with
  | [] => st
  | _ :: _ =>
      if scrobble_requests_active_ st <? kMaxConcurrentScrobbleRequests
      then FlushScrobbleRequests st else st
  end.

Definition Error (error : QString) (debug : QVariant) (st : State) : State :=
  let st :=
    if negb (QStr.isEmpty error)
    then set_errors (errors_ st ++ [error]) (write_log (LogError error) st)
    else st in
  let st := match debug with
            | Some d => write_log (LogDebug d) st
            | None => st
            end in
  FinishCheck st.

Section Collaborators.

(** GetReplyData and ExtractJsonObj are members of SubsonicBaseRequest and
    are defined in subsonicbaserequest.cpp.  They are taken as they are
    described in the spec (6): the first gives the bytes of a finished reply
    (none when there is no content or the transport failed), the second the
    parsed document, empty when the bytes are no JSON object; neither acts
    on the queue. *)
Variable GetReplyData : QNetworkReply -> QByteArray.
Variable ExtractJsonObj : QByteArray -> QJsonObject.

(** QLocale().toString(n), the text a [%L] marker receives for a number. *)
Variable QLocale_toString : Z -> QString.

(** QString::arg(int a). *)
Definition arg_int (s : QString) (a : Z) : QString :=
  QStr.arg_with s (QStr.number a) (QLocale_toString a).

(** ScrobbleReplyReceived, lines 93-97: the reply leaves [replies_] and the
    counter goes down. *)
Definition TakeReply (reply : QNetworkReply) (st : State) : State :=
  let st := set_replies (removeAll (replies_ st) reply) st in
  let st := disconnect reply st in
  let st := deleteLater reply st in
  set_active (int_wrap (scrobble_requests_active_ st - 1)) st.

(** ScrobbleReplyReceived, lines 99-137: the reply is read for an error. *)
Definition ReadReply (reply : QNetworkReply) (st : State) : State :=
  let data := GetReplyData reply in
  if QStr.isEmpty data then FinishCheck st
  else
    let json_obj := ExtractJsonObj data in
    if Json.isEmpty json_obj then FinishCheck st
    else if Json.contains json_obj "error" then
      let json_error := Json.value json_obj "error" in
      if negb (Json.isObject json_error)
      then FinishCheck (Error "Json error is not an object." (Some json_obj) st)
      else
        let json_obj := Json.toObject json_error in
        if negb (Json.isEmpty json_obj) && Json.contains json_obj "code"
           && Json.contains json_obj "message"
        then
          let code := Json.toInt (Json.value json_obj "code") in
          let message := Json.toString (Json.value json_obj "message") in
          FinishCheck (Error (arg_int (QStr.arg "%1 (%2)" message) code) None st)
        else
          FinishCheck
            (Error "Json error object is missing code or message." (Some json_obj) st)
    else FinishCheck st.

Definition ScrobbleReplyReceived (reply : QNetworkReply) (st : State) : State :=
  if negb (contains (replies_ st) reply) then st
  else ReadReply reply (TakeReply reply st).

(** The finished() signal of [reply]: the lambda connected at line 84 runs
    if the connection is still there. *)
Definition emit_finished (reply : QNetworkReply) (st : State) : State :=
  if contains (connected st) reply then ScrobbleReplyReceived reply st else st.

(** QNetworkReply::abort(): the reply stops and signals finished() at once. *)
Definition abort (reply : QNetworkReply) (st : State) : State :=
  emit_finished reply
    (record (OpAbort reply) (set_running (removeAll (running st) reply) st)).

(** The body of the destructor's loop (lines 52-55), entered with [reply]
    first in [replies_] and [rest] behind it. *)
Definition DestructorStep (reply : QNetworkReply) (rest : list QNetworkReply)
                          (st : State) : State :=
  let st := set_replies rest st in
  let st := disconnect reply st in
  let st := if isRunning reply st then abort reply st else st in
  deleteLater reply st.

Fixpoint DestructorLoop (fuel : nat) (st : State) : State :=
  match fuel with
  | O => st
  | S fuel' =>
      match replies_ st with
      | [] => st
      | reply :: rest => DestructorLoop fuel' (DestructorStep reply rest st)
      end
  end.

(** ~SubsonicScrobbleRequest(). *)
Definition Destructor (st : State) : State :=
  DestructorLoop (List.length (replies_ st)) st.

(** *** What can happen to a live object *)

Inductive Event : Type :=
| Submit (song : QString) (submit : bool) (start_time : QDateTime)
    (* a caller runs CreateScrobbleRequest *)
| Completion (reply : QNetworkReply)
    (* ScrobbleReplyReceived runs for [reply] *)
| Finished (reply : QNetworkReply).
    (* the network ends [reply] and signals finished() *)

Definition step (st : State) (ev : Event) : State :=
  match ev with
  | Submit song submit start_time => CreateScrobbleRequest song submit start_time st
  | Completion reply => ScrobbleReplyReceived reply st
  | Finished reply =>
      emit_finished reply (set_running (removeAll (running st) reply) st)
  end.

Definition run (evs : list Event) (st : State) : State := fold_left step evs st.

End Collaborators.

(** ** Observations used in the statements *)

(** The parameters FlushScrobbleRequests sends for a request (lines 78-80). *)
Definition params_of (request : Request) : ParamList :=
  [ ("id", song_id request);
    ("submission", bool_toString (submission request));
    ("time", QStr.number (time_ms request)) ].

(** The parameter lists of the requests sent so far, oldest first. *)
Definition sent (st : State) : list ParamList :=
  flat_map (fun op => match op with OpGet _ _ params => [params] | _ => [] end)
           (journal st).

(** The requests sent, followed by the requests waiting: flushing moves the
    border between the two and changes neither the order nor the content. *)
Definition ledger (st : State) : list ParamList :=
  sent st ++ map params_of (scrobble_requests_queue_ st).

(** The event that submits a given request. *)
Definition submit_of (request : Request) : Event :=
  Submit (song_id request) (submission request)
         {| toMSecsSinceEpoch := time_ms request |}.

(** The protocol-error text of the spec: the message, then the code in
    parentheses. *)
Definition protocol_text (message : QString) (code : Z) : QString :=
  (message ++ " (" ++ QStr.number code ++ ")")%string.

(** The lowest place marker inside a text, if it has one. *)
Definition lowest_marker (s : QString) : option nat :=
  QStr.min_escape (QStr.scanEscapes QStr.Plain s).

(** The text a list of tokens stands for, and the text a scanner state has
    read but not yet turned into a token. *)
Fixpoint tokens_text (ts : list QStr.ArgToken) : string :=
  match ts with
  | [] => ""
  | QStr.Text c :: ts' => String c (tokens_text ts')
  | QStr.Escape _ _ t :: ts' => t ++ tokens_text ts'
  end.

Definition pending (st : QStr.ScanState) : string :=
  match st with
  | QStr.Plain => ""
  | QStr.Percent => "%"
  | QStr.PercentL => "%L"
  | QStr.Digit _ _ t => t
  end.

(** A character that neither starts nor continues a place marker. *)
Definition plain_char (c : ascii) : bool :=
  negb (Ascii.eqb c QStr.percent) && negb (Ascii.eqb c QStr.letterL)
  && match QStr.digitValue c with Some _ => false | None => true end.

(** The markers of a token list are all numbered above [k]. *)
Fixpoint markers_above (k : nat) (ts : list QStr.ArgToken) : bool :=
  match ts with
  | [] => true
  | QStr.Text _ :: ts' => markers_above k ts'
  | QStr.Escape _ n _ :: ts' => (k <? n)%nat && markers_above k ts'
  end.

(** The last character of a text is [c]. *)
Fixpoint ends_with (c : ascii) (s : string) : bool :=
  match s with
  | EmptyString => false
  | String a EmptyString => Ascii.eqb a c
  | String _ s' => ends_with c s'
  end.

(** The state Error is in when it reaches its FinishCheck. *)
Definition reported (error : QString) (debug : QVariant) (st : State) : State :=
  let st :=
    if negb (QStr.isEmpty error)
    then set_errors (errors_ st ++ [error]) (write_log (LogError error) st)
    else st in
  match debug with
  | Some d => write_log (LogDebug d) st
  | None => st
  end.

Definition about (reply : QNetworkReply) (op : NetOp) : bool :=
  match op with
  | OpGet r _ _ | OpConnect r | OpDisconnect r | OpAbort r | OpDeleteLater r =>
      Nat.eqb reply r
  end.

(** What holds of the object between two events. *)
Record Inv (st : State) : Prop := {
  inv_range : 0 <= scrobble_requests_active_ st <= kMaxConcurrentScrobbleRequests;
  inv_count : scrobble_requests_active_ st = Z.of_nat (List.length (replies_ st));
  inv_nodup : NoDup (replies_ st);
  inv_fresh : Forall (fun r => (r < next_reply st)%nat) (replies_ st);
  inv_connected : connected st = replies_ st
}.

(** The calls the destructor makes for one reply of [replies_]. *)
Definition teardown_ops (st : State) (reply : QNetworkReply) : list NetOp :=
  OpDisconnect reply
    :: (if isRunning reply st then [OpAbort reply] else []) ++ [OpDeleteLater reply].

(** ** A sample server

    Payloads of the kinds the reply handler tells apart, with the documents
    a JSON parser makes of them; anything else is taken not to parse.  The
    sample server answers every request with one given payload. *)
Definition quoted (s : string) : string :=
  String (ascii_of_nat 34) (s ++ String (ascii_of_nat 34) "").

Definition payload_error (code message : string) : QByteArray :=
  ("{" ++ quoted "error" ++ ":{" ++ quoted "code" ++ ":" ++ code ++ ","
       ++ quoted "message" ++ ":" ++ message ++ "}}")%string.

Definition payload_bad_session : QByteArray := payload_error "70" (quoted "bad session").
Definition payload_oops : QByteArray :=
  ("{" ++ quoted "error" ++ ":" ++ quoted "oops" ++ "}")%string.
Definition payload_no_message : QByteArray :=
  ("{" ++ quoted "error" ++ ":{" ++ quoted "code" ++ ":70}}")%string.
Definition payload_wrong_types : QByteArray := payload_error (quoted "x") "5".
Definition payload_big_code : QByteArray :=
  payload_error "4294967366" (quoted "bad session").
Definition payload_marker : QByteArray := payload_error "70" (quoted "bad %1").
Definition payload_ok : QByteArray :=
  ("{" ++ quoted "status" ++ ":" ++ quoted "ok" ++ "}")%string.

Definition sample_documents : list (QByteArray * QJsonObject) :=
  [ (payload_bad_session,
     [("error", JObject [("code", JDouble (70 # 1)); ("message", JString "bad session")])]);
    (payload_oops, [("error", JString "oops")]);
    (payload_no_message, [("error", JObject [("code", JDouble (70 # 1))])]);
    (payload_wrong_types,
     [("error", JObject [("code", JString "x"); ("message", JDouble (5 # 1))])]);
    (payload_big_code,
     [("error", JObject [("code", JDouble (4294967366 # 1));
                         ("message", JString "bad session")])]);
    (payload_marker,
     [("error", JObject [("code", JDouble (70 # 1)); ("message", JString "bad %1")])]);
    (payload_ok, [("status", JString "ok")]) ].

Fixpoint lookup_payload (table : list (QByteArray * QJsonObject)) (data : QByteArray)
  : QJsonObject :=
  match table with
  | [] => []
  | (bytes, doc) :: table' =>
      if String.eqb bytes data then doc else lookup_payload table' data
  end.

Definition sample_parse (data : QByteArray) : QJsonObject :=
  lookup_payload sample_documents data.

Definition answering (data : QByteArray) : QNetworkReply -> QByteArray := fun _ => data.

(** A new object talking to the sample server, numbers printed as in the
    C locale. *)
Definition sample_run (data : QByteArray) (evs : list Event) : State :=
  run (answering data) sample_parse QStr.number evs SubsonicScrobbleRequest.

Definition at_ms (ms : Z) : QDateTime := {| toMSecsSinceEpoch := ms |}.

(** One request submitted and in flight, as reply 0. *)
Definition one_in_flight (data : QByteArray) : State :=
  sample_run data [Submit "song" true (at_ms 0)].

Definition sample_requests : list Request :=
  [ {| song_id := "s1"; submission := false; time_ms := 1000 |};
    {| song_id := "s1"; submission := true; time_ms := 1000 |};
    {| song_id := "s2"; submission := false; time_ms := 2000 |};
    {| song_id := "s2"; submission := true; time_ms := 2000 |};
    {| song_id := "s3"; submission := false; time_ms := 3000 |} ].

(** ** Further observations *)

(** The requests a sequence of events hands to CreateScrobbleRequest, in
    order. *)
Fixpoint submitted (evs : list Event) : list Request :=
  match evs with
  | [] => []
  | Submit song submit start_time :: evs' =>
      {| song_id := song; submission := submit;
         time_ms := toMSecsSinceEpoch start_time |} :: submitted evs'
  | _ :: evs' => submitted evs'
  end.

(** No request waits while fewer requests are active than the limit allows. *)
Definition saturated (st : State) : Prop :=
  scrobble_requests_queue_ st = []
  \/ scrobble_requests_active_ st = kMaxConcurrentScrobbleRequests.

(** The state without what Error records: [errors_] and the log. *)
Definition without_errors (st : State) : State :=
  mkState (scrobble_requests_queue_ st) (scrobble_requests_active_ st) (replies_ st)
          [] [] (next_reply st) (connected st) (running st) (journal st).

(** The texts of the error lines of the log, oldest first. *)
Definition error_lines (log : list LogLine) : list QString :=
  flat_map (fun line => match line with LogError text => [text] | LogDebug _ => [] end)
           log.

(** Whether the reply handler finds an [error] key (the tests of lines 103,
    109 and 114). *)
Definition has_error (data : QByteArray) (doc : QJsonObject) : bool :=
  negb (QStr.isEmpty data) && negb (Json.isEmpty doc) && Json.contains doc "error".

(** The replies in flight complete one after the other, [pick] choosing
    which of them is next, until none is in flight (or the fuel is spent). *)
Fixpoint complete_all (GetReplyData : QNetworkReply -> QByteArray)
                      (ExtractJsonObj : QByteArray -> QJsonObject)
                      (QLocale_toString : Z -> QString)
                      (pick : list QNetworkReply -> QNetworkReply)
                      (fuel : nat) (st : State) : State :=
  match fuel with
  | O => st
  | S fuel' =>
      match replies_ st with
      | [] => st
      | _ :: _ =>
          complete_all GetReplyData ExtractJsonObj QLocale_toString pick fuel'
            (ScrobbleReplyReceived GetReplyData ExtractJsonObj QLocale_toString
               (pick (replies_ st)) st)
      end
  end.

(** The calls made to the network layer about one reply, oldest first. *)
Definition calls_about (reply : QNetworkReply) (st : State) : list NetOp :=
  filter (about reply) (journal st).

(** A reply not yet created has no call; a reply in flight has been
    requested and connected; a reply no longer in flight has after that
    been disconnected and released. *)
Definition lifecycle (st : State) (reply : QNetworkReply) : Prop :=
  if (next_reply st <=? reply)%nat then calls_about reply st = []
  else exists params,
      calls_about reply st
      = [OpGet reply "scrobble" params; OpConnect reply]
        ++ (if contains (replies_ st) reply then []
            else [OpDisconnect reply; OpDeleteLater reply]).

(** * Properties *)

(** ** Arithmetic on the counter *)

Lemma int_wrap_small (z : Z) :
  - 2147483648 <= z < 2147483648 -> int_wrap z = z.
Proof.
  intros H. unfold int_wrap.
  change (2 ^ 31) with 2147483648. change (2 ^ 32) with 4294967296.
  rewrite Z.mod_small by lia. lia.
Qed.

Lemma contains_In (l : list QNetworkReply) (reply : QNetworkReply) :
  contains l reply = true <-> In reply l.
Proof.
  unfold contains. rewrite existsb_exists. split.
  - intros [x [Hin Heq]]. apply Nat.eqb_eq in Heq. now subst.
  - intros Hin. exists reply. split; [assumption | apply Nat.eqb_refl].
Qed.

Lemma contains_not_In (l : list QNetworkReply) (reply : QNetworkReply) :
  contains l reply = false <-> ~ In reply l.
Proof.
  rewrite <- contains_In. destruct (contains l reply); split; congruence.
Qed.

Lemma removeAll_In (l : list QNetworkReply) (reply r : QNetworkReply) :
  In r (removeAll l reply) <-> In r l /\ r <> reply.
Proof.
  unfold removeAll. rewrite filter_In. rewrite negb_true_iff, Nat.eqb_neq.
  split; intros [H1 H2]; split; auto.
Qed.

Lemma removeAll_absent (l : list QNetworkReply) (reply : QNetworkReply) :
  ~ In reply l -> removeAll l reply = l.
Proof.
  induction l as [|a l IH]; simpl; intros H; [reflexivity|].
  destruct (Nat.eqb_spec reply a) as [->|Hne]; simpl.
  - exfalso. apply H. now left.
  - f_equal. apply IH. intros Hin. apply H. now right.
Qed.

Lemma removeAll_NoDup (l : list QNetworkReply) (reply : QNetworkReply) :
  NoDup l -> NoDup (removeAll l reply).
Proof. intros H. unfold removeAll. now apply NoDup_filter. Qed.

Lemma removeAll_length (l : list QNetworkReply) (reply : QNetworkReply) :
  NoDup l -> In reply l -> S (List.length (removeAll l reply)) = List.length l.
Proof.
  induction l as [|a l IH]; simpl; intros Hnd Hin; [contradiction|].
  inversion Hnd as [|? ? Hna Hnd']; subst.
  destruct (Nat.eqb_spec reply a) as [->|Hne]; simpl.
  - now rewrite removeAll_absent.
  - f_equal. apply IH; [assumption|]. destruct Hin as [->|Hin]; [contradiction|assumption].
Qed.

Lemma removeAll_head (reply : QNetworkReply) (rest : list QNetworkReply) :
  NoDup (reply :: rest) -> removeAll (reply :: rest) reply = rest.
Proof.
  intros Hnd. inversion Hnd; subst. simpl. rewrite Nat.eqb_refl. simpl.
  now apply removeAll_absent.
Qed.

(** ** The flush loop *)

Section FlushFacts.

Variables (request : Request) (rest : list Request) (st : State).

Lemma FlushStep_queue : scrobble_requests_queue_ (FlushStep request rest st) = rest.
Proof. reflexivity. Qed.

Lemma FlushStep_active :
  scrobble_requests_active_ (FlushStep request rest st)
  = int_wrap (scrobble_requests_active_ st + 1).
Proof. reflexivity. Qed.

Lemma FlushStep_replies :
  replies_ (FlushStep request rest st) = replies_ st ++ [next_reply st].
Proof. reflexivity. Qed.

Lemma FlushStep_connected :
  connected (FlushStep request rest st) = connected st ++ [next_reply st].
Proof. reflexivity. Qed.

Lemma FlushStep_next_reply : next_reply (FlushStep request rest st) = S (next_reply st).
Proof. reflexivity. Qed.

Lemma FlushStep_errors : errors_ (FlushStep request rest st) = errors_ st.
Proof. reflexivity. Qed.

Lemma FlushStep_qLog : qLog (FlushStep request rest st) = qLog st.
Proof. reflexivity. Qed.

Lemma FlushStep_journal :
  journal (FlushStep request rest st)
  = journal st ++ [OpGet (next_reply st) "scrobble" (params_of request);
                   OpConnect (next_reply st)].
Proof. simpl. rewrite <- app_assoc. reflexivity. Qed.

End FlushFacts.

(** Whatever every turn of the loop keeps, the loop keeps. *)
Lemma FlushLoop_keeps (P : State -> Prop) :
  (forall st request rest,
      scrobble_requests_queue_ st = request :: rest ->
      scrobble_requests_active_ st < kMaxConcurrentScrobbleRequests ->
      P st -> P (FlushStep request rest st)) ->
  forall fuel st, P st -> P (FlushLoop fuel st).
Proof.
  intros Hstep fuel. induction fuel as [|fuel IH]; intros st HP; simpl; [assumption|].
  destruct (scrobble_requests_queue_ st) as [|request rest] eqn:Hq; [assumption|].
  destruct (scrobble_requests_active_ st <? kMaxConcurrentScrobbleRequests) eqn:Hlt;
    [|assumption].
  apply IH. apply Hstep; [assumption| now apply Z.ltb_lt |assumption].
Qed.

(** With the queue's length as fuel the loop ends by its own test: the queue
    is empty or the limit is reached. *)
Lemma FlushLoop_exit (fuel : nat) :
  forall st, (List.length (scrobble_requests_queue_ st) <= fuel)%nat ->
  scrobble_requests_queue_ (FlushLoop fuel st) = []
  \/ kMaxConcurrentScrobbleRequests <= scrobble_requests_active_ (FlushLoop fuel st).
Proof.
  induction fuel as [|fuel IH]; intros st Hlen; simpl.
  - left. destruct (scrobble_requests_queue_ st); [reflexivity | simpl in Hlen; lia].
  - destruct (scrobble_requests_queue_ st) as [|request rest] eqn:Hq.
    + now left.
    + destruct (scrobble_requests_active_ st <? kMaxConcurrentScrobbleRequests) eqn:Hlt.
      * apply IH. rewrite FlushStep_queue. simpl in Hlen. lia.
      * right. apply Z.ltb_ge in Hlt. assumption.
Qed.

(** More fuel than the queue is long changes nothing. *)
Lemma FlushLoop_fuel (fuel : nat) :
  forall st, (List.length (scrobble_requests_queue_ st) <= fuel)%nat ->
  FlushLoop fuel st = FlushScrobbleRequests st.
Proof.
  unfold FlushScrobbleRequests.
  induction fuel as [|fuel IH]; intros st Hlen.
  - destruct (scrobble_requests_queue_ st); [reflexivity | simpl in Hlen; lia].
  - destruct (scrobble_requests_queue_ st) as [|request rest] eqn:Hq.
    + simpl. now rewrite Hq.
    + simpl. rewrite Hq.
      destruct (scrobble_requests_active_ st <? kMaxConcurrentScrobbleRequests);
        [|reflexivity].
      rewrite !IH by (rewrite FlushStep_queue; simpl in Hlen; lia).
      reflexivity.
Qed.

Lemma FlushScrobbleRequests_exit (st : State) :
  scrobble_requests_queue_ (FlushScrobbleRequests st) = []
  \/ kMaxConcurrentScrobbleRequests <= scrobble_requests_active_ (FlushScrobbleRequests st).
Proof. apply FlushLoop_exit. apply Nat.le_refl. Qed.

(** One turn of the loop, as an equation. *)
Lemma FlushScrobbleRequests_cons (st : State) (request : Request) (rest : list Request) :
  scrobble_requests_queue_ st = request :: rest ->
  scrobble_requests_active_ st < kMaxConcurrentScrobbleRequests ->
  FlushScrobbleRequests st = FlushScrobbleRequests (FlushStep request rest st).
Proof.
  intros Hq Hlt. unfold FlushScrobbleRequests at 1. rewrite Hq. simpl. rewrite Hq.
  apply Z.ltb_lt in Hlt. rewrite Hlt. apply FlushLoop_fuel.
  rewrite FlushStep_queue. apply Nat.le_refl.
Qed.

Lemma FlushScrobbleRequests_stop (st : State) :
  scrobble_requests_queue_ st = []
  \/ kMaxConcurrentScrobbleRequests <= scrobble_requests_active_ st ->
  FlushScrobbleRequests st = st.
Proof.
  intros H. unfold FlushScrobbleRequests.
  destruct (scrobble_requests_queue_ st) as [|request rest] eqn:Hq; [reflexivity|].
  simpl. rewrite Hq. destruct H as [H|H]; [discriminate|].
  apply Z.ltb_ge in H. now rewrite H.
Qed.

Lemma FinishCheck_flush (st : State) : FinishCheck st = FlushScrobbleRequests st.
Proof.
  unfold FinishCheck.
  destruct (scrobble_requests_queue_ st) eqn:Hq.
  - symmetry. apply FlushScrobbleRequests_stop. now left.
  - destruct (scrobble_requests_active_ st <? kMaxConcurrentScrobbleRequests) eqn:Hlt;
      [reflexivity|].
    symmetry. apply FlushScrobbleRequests_stop. right. now apply Z.ltb_ge.
Qed.

Lemma FinishCheck_exit (st : State) :
  scrobble_requests_queue_ (FinishCheck st) = []
  \/ kMaxConcurrentScrobbleRequests <= scrobble_requests_active_ (FinishCheck st).
Proof. rewrite FinishCheck_flush. apply FlushScrobbleRequests_exit. Qed.

Lemma FinishCheck_stop (st : State) :
  scrobble_requests_queue_ st = []
  \/ kMaxConcurrentScrobbleRequests <= scrobble_requests_active_ st ->
  FinishCheck st = st.
Proof. rewrite FinishCheck_flush. apply FlushScrobbleRequests_stop. Qed.

(** A second FinishCheck in a row finds nothing to do. *)
Lemma FinishCheck_twice (st : State) : FinishCheck (FinishCheck st) = FinishCheck st.
Proof. apply FinishCheck_stop. apply FinishCheck_exit. Qed.

Lemma FinishCheck_keeps (P : State -> Prop) :
  (forall st request rest,
      scrobble_requests_queue_ st = request :: rest ->
      scrobble_requests_active_ st < kMaxConcurrentScrobbleRequests ->
      P st -> P (FlushStep request rest st)) ->
  forall st, P st -> P (FinishCheck st).
Proof.
  intros Hstep st HP. rewrite FinishCheck_flush. unfold FlushScrobbleRequests.
  now apply FlushLoop_keeps.
Qed.

(** ** The invariant *)

Lemma Error_reported (error : QString) (debug : QVariant) (st : State) :
  Error error debug st = FinishCheck (reported error debug st).
Proof. reflexivity. Qed.

Lemma reported_nothing (st : State) : reported "" None st = st.
Proof. reflexivity. Qed.

Lemma Inv_init : Inv SubsonicScrobbleRequest.
Proof.
  constructor; simpl; try reflexivity.
  - unfold kMaxConcurrentScrobbleRequests. lia.
  - constructor.
  - constructor.
Qed.

Lemma Inv_FlushStep (st : State) (request : Request) (rest : list Request) :
  Inv st ->
  scrobble_requests_active_ st < kMaxConcurrentScrobbleRequests ->
  Inv (FlushStep request rest st).
Proof.
  intros [Hr Hc Hn Hf Hcn] Hlt. unfold kMaxConcurrentScrobbleRequests in *.
  constructor.
  - rewrite FlushStep_active, int_wrap_small by lia.
    unfold kMaxConcurrentScrobbleRequests. lia.
  - rewrite FlushStep_active, FlushStep_replies, int_wrap_small by lia.
    rewrite length_app. simpl. lia.
  - rewrite FlushStep_replies. apply NoDup_app; [assumption | repeat constructor; intros [] |].
    intros r Hin [<-|[]]. rewrite Forall_forall in Hf. specialize (Hf _ Hin). lia.
  - rewrite FlushStep_replies, FlushStep_next_reply. apply Forall_app. split.
    + eapply Forall_impl; [|exact Hf]. simpl. intros. lia.
    + repeat constructor.
  - rewrite FlushStep_connected, FlushStep_replies. now rewrite Hcn.
Qed.

Lemma Inv_FinishCheck (st : State) : Inv st -> Inv (FinishCheck st).
Proof.
  apply FinishCheck_keeps. intros st' request rest _ Hlt HI. now apply Inv_FlushStep.
Qed.

Lemma Inv_FlushScrobbleRequests (st : State) : Inv st -> Inv (FlushScrobbleRequests st).
Proof. rewrite <- FinishCheck_flush. apply Inv_FinishCheck. Qed.

Lemma Inv_reported (error : QString) (debug : QVariant) (st : State) :
  Inv st -> Inv (reported error debug st).
Proof.
  intros [Hr Hc Hn Hf Hcn]. unfold reported.
  destruct (negb (QStr.isEmpty error)); destruct debug; constructor; assumption.
Qed.

Lemma Inv_CreateScrobbleRequest (song : QString) (submit : bool) (start_time : QDateTime)
                                (st : State) :
  Inv st -> Inv (CreateScrobbleRequest song submit start_time st).
Proof.
  intros HI. unfold CreateScrobbleRequest. simpl.
  match goal with |- Inv (if _ then FlushScrobbleRequests ?s else _) =>
    assert (HI' : Inv s) by (destruct HI; constructor; assumption) end.
  destruct (scrobble_requests_active_ st <? kMaxConcurrentScrobbleRequests);
    [now apply Inv_FlushScrobbleRequests | assumption].
Qed.

Section ReplyFacts.

Variable GetReplyData : QNetworkReply -> QByteArray.
Variable ExtractJsonObj : QByteArray -> QJsonObject.
Variable QLocale_toString : Z -> QString.

Local Abbreviation ReadReply' := (ReadReply GetReplyData ExtractJsonObj QLocale_toString).
Local Abbreviation ScrobbleReplyReceived' := (ScrobbleReplyReceived GetReplyData ExtractJsonObj QLocale_toString).
Local Abbreviation emit_finished' := (emit_finished GetReplyData ExtractJsonObj QLocale_toString).
Local Abbreviation step' := (step GetReplyData ExtractJsonObj QLocale_toString).
Local Abbreviation run' := (run GetReplyData ExtractJsonObj QLocale_toString).

(** Whatever the reply holds, reading it comes down to at most one report
    and a FinishCheck. *)
Lemma ReadReply_shape (reply : QNetworkReply) (st : State) :
  exists error debug, ReadReply' reply st = FinishCheck (reported error debug st).
Proof.
  unfold ReadReply', ReadReply.
  destruct (QStr.isEmpty (GetReplyData reply)).
  { exists "", None. reflexivity. }
  destruct (Json.isEmpty (ExtractJsonObj (GetReplyData reply))).
  { exists "", None. reflexivity. }
  destruct (Json.contains (ExtractJsonObj (GetReplyData reply)) "error").
  2: { exists "", None. reflexivity. }
  destruct (negb (Json.isObject _)).
  { eexists _, _. rewrite Error_reported. apply FinishCheck_twice. }
  match goal with |- context [if ?c then _ else _] => destruct c end.
  - eexists _, _. rewrite Error_reported. apply FinishCheck_twice.
  - eexists _, _. rewrite Error_reported. apply FinishCheck_twice.
Qed.

Lemma TakeReply_replies (reply : QNetworkReply) (st : State) :
  replies_ (TakeReply reply st) = removeAll (replies_ st) reply.
Proof. reflexivity. Qed.

Lemma TakeReply_active (reply : QNetworkReply) (st : State) :
  scrobble_requests_active_ (TakeReply reply st)
  = int_wrap (scrobble_requests_active_ st - 1).
Proof. reflexivity. Qed.

Lemma TakeReply_queue (reply : QNetworkReply) (st : State) :
  scrobble_requests_queue_ (TakeReply reply st) = scrobble_requests_queue_ st.
Proof. reflexivity. Qed.

Lemma Inv_positive (reply : QNetworkReply) (st : State) :
  Inv st -> In reply (replies_ st) -> 1 <= scrobble_requests_active_ st.
Proof.
  intros [Hr Hc Hn Hf Hcn] Hin. rewrite Hc.
  destruct (replies_ st); [contradiction | simpl; lia].
Qed.

Lemma Inv_TakeReply (reply : QNetworkReply) (st : State) :
  Inv st -> In reply (replies_ st) -> Inv (TakeReply reply st).
Proof.
  intros HI Hin. pose proof (Inv_positive reply st HI Hin) as Hpos.
  destruct HI as [Hr Hc Hn Hf Hcn]. unfold kMaxConcurrentScrobbleRequests in *.
  constructor.
  - rewrite TakeReply_active, int_wrap_small by lia.
    unfold kMaxConcurrentScrobbleRequests. lia.
  - rewrite TakeReply_active, TakeReply_replies, int_wrap_small by lia.
    pose proof (removeAll_length _ _ Hn Hin). lia.
  - rewrite TakeReply_replies. now apply removeAll_NoDup.
  - rewrite TakeReply_replies. simpl. rewrite Forall_forall in *.
    intros r Hr'. apply removeAll_In in Hr'. apply Hf. tauto.
  - simpl. now rewrite Hcn.
Qed.

Lemma Inv_ReadReply (reply : QNetworkReply) (st : State) :
  Inv st -> Inv (ReadReply' reply st).
Proof.
  intros HI. destruct (ReadReply_shape reply st) as (error & debug & ->).
  now apply Inv_FinishCheck, Inv_reported.
Qed.

Lemma Inv_ScrobbleReplyReceived (reply : QNetworkReply) (st : State) :
  Inv st -> Inv (ScrobbleReplyReceived' reply st).
Proof.
  intros HI. unfold ScrobbleReplyReceived', ScrobbleReplyReceived.
  destruct (contains (replies_ st) reply) eqn:Hc; simpl; [|assumption].
  apply Inv_ReadReply, Inv_TakeReply; [assumption | now apply contains_In].
Qed.

Lemma Inv_emit_finished (reply : QNetworkReply) (st : State) :
  Inv st -> Inv (emit_finished' reply st).
Proof.
  intros HI. unfold emit_finished', emit_finished.
  destruct (contains (connected st) reply); [now apply Inv_ScrobbleReplyReceived | assumption].
Qed.

Lemma Inv_step (ev : Event) (st : State) : Inv st -> Inv (step' st ev).
Proof.
  intros HI. destruct ev as [song submit start_time | reply | reply]; simpl.
  - now apply Inv_CreateScrobbleRequest.
  - now apply Inv_ScrobbleReplyReceived.
  - apply Inv_emit_finished. destruct HI. constructor; assumption.
Qed.

Lemma Inv_run (evs : list Event) : forall st, Inv st -> Inv (run' evs st).
Proof.
  induction evs as [|ev evs IH]; intros st HI; simpl; [assumption|].
  apply IH. now apply Inv_step.
Qed.

(** C1.  Whatever calls of CreateScrobbleRequest and whatever completions a
    new object meets, in whatever order, the counter of active requests
    stays between 0 and the limit, and the limit is the constant 3. *)
Theorem active_never_exceeds_limit :
  kMaxConcurrentScrobbleRequests = 3 /\
  forall evs : list Event,
    0 <= scrobble_requests_active_ (run' evs SubsonicScrobbleRequest)
      <= kMaxConcurrentScrobbleRequests.
Proof.
  split; [reflexivity|]. intros evs.
  apply (inv_range _ (Inv_run evs _ Inv_init)).
Qed.

End ReplyFacts.

(** ** Submission and FIFO dispatch *)

Lemma reported_fields (error : QString) (debug : QVariant) (st : State) :
  scrobble_requests_queue_ (reported error debug st) = scrobble_requests_queue_ st
  /\ scrobble_requests_active_ (reported error debug st) = scrobble_requests_active_ st
  /\ replies_ (reported error debug st) = replies_ st
  /\ next_reply (reported error debug st) = next_reply st
  /\ connected (reported error debug st) = connected st
  /\ running (reported error debug st) = running st
  /\ journal (reported error debug st) = journal st.
Proof.
  unfold reported. destruct (negb (QStr.isEmpty error)); destruct debug; repeat split.
Qed.

Lemma sent_app (st : State) (ops : list NetOp) (j : list NetOp) :
  journal st = j ++ ops ->
  sent st = flat_map (fun op => match op with OpGet _ _ params => [params] | _ => [] end) j
            ++ flat_map (fun op => match op with OpGet _ _ params => [params] | _ => [] end) ops.
Proof. intros H. unfold sent. rewrite H. apply flat_map_app. Qed.

Lemma sent_FlushStep (request : Request) (rest : list Request) (st : State) :
  sent (FlushStep request rest st) = sent st ++ [params_of request].
Proof. rewrite (sent_app _ _ _ (FlushStep_journal request rest st)). reflexivity. Qed.

Lemma sent_reported (error : QString) (debug : QVariant) (st : State) :
  sent (reported error debug st) = sent st.
Proof.
  unfold sent. now replace (journal (reported error debug st)) with (journal st)
    by (symmetry; apply reported_fields).
Qed.

Lemma ledger_FlushScrobbleRequests (st : State) :
  ledger (FlushScrobbleRequests st) = ledger st.
Proof.
  unfold FlushScrobbleRequests.
  apply (FlushLoop_keeps (fun st' => ledger st' = ledger st)); [|reflexivity].
  intros st' request rest Hq _ <-. unfold ledger.
  rewrite sent_FlushStep, FlushStep_queue, Hq. simpl. now rewrite <- app_assoc.
Qed.

Lemma errors_FlushScrobbleRequests (st : State) :
  errors_ (FlushScrobbleRequests st) = errors_ st
  /\ qLog (FlushScrobbleRequests st) = qLog st.
Proof.
  unfold FlushScrobbleRequests.
  apply (FlushLoop_keeps (fun st' => errors_ st' = errors_ st /\ qLog st' = qLog st));
    [|split; reflexivity].
  intros st' request rest _ _ H. now rewrite FlushStep_errors, FlushStep_qLog.
Qed.

Lemma set_queue_same (st : State) : set_queue (scrobble_requests_queue_ st) st = st.
Proof. now destruct st. Qed.

Lemma request_of_submit (request : Request) :
  {| song_id := song_id request; submission := submission request;
     time_ms := toMSecsSinceEpoch {| toMSecsSinceEpoch := time_ms request |} |} = request.
Proof. now destruct request. Qed.

Section SubmitFacts.

Variable GetReplyData : QNetworkReply -> QByteArray.
Variable ExtractJsonObj : QByteArray -> QJsonObject.
Variable QLocale_toString : Z -> QString.

Local Abbreviation ReadReply' := (ReadReply GetReplyData ExtractJsonObj QLocale_toString).
Local Abbreviation ScrobbleReplyReceived' :=
  (ScrobbleReplyReceived GetReplyData ExtractJsonObj QLocale_toString).
Local Abbreviation run' := (run GetReplyData ExtractJsonObj QLocale_toString).

(** Below the limit with an empty queue, a submitted request is sent at once. *)
Lemma submit_below_limit (request : Request) (st : State) :
  scrobble_requests_queue_ st = [] ->
  scrobble_requests_active_ st < kMaxConcurrentScrobbleRequests ->
  CreateScrobbleRequest (song_id request) (submission request)
                        {| toMSecsSinceEpoch := time_ms request |} st
  = FlushStep request [] (set_queue [request] st).
Proof.
  intros Hq Hlt. unfold CreateScrobbleRequest. rewrite request_of_submit, Hq. simpl.
  apply Z.ltb_lt in Hlt. rewrite Hlt. apply Z.ltb_lt in Hlt.
  rewrite (FlushScrobbleRequests_cons _ request []) by (simpl; auto).
  apply FlushScrobbleRequests_stop. left. reflexivity.
Qed.

(** At the limit a submitted request only joins the queue. *)
Lemma submit_at_limit (request : Request) (st : State) :
  kMaxConcurrentScrobbleRequests <= scrobble_requests_active_ st ->
  CreateScrobbleRequest (song_id request) (submission request)
                        {| toMSecsSinceEpoch := time_ms request |} st
  = set_queue (scrobble_requests_queue_ st ++ [request]) st.
Proof.
  intros Hge. unfold CreateScrobbleRequest. rewrite request_of_submit. simpl.
  apply Z.ltb_ge in Hge. now rewrite Hge.
Qed.

Lemma run_submits_below_limit (reqs : list Request) :
  forall st,
    scrobble_requests_queue_ st = [] ->
    0 <= scrobble_requests_active_ st ->
    scrobble_requests_active_ st + Z.of_nat (List.length reqs)
      <= kMaxConcurrentScrobbleRequests ->
    let st' := run' (map submit_of reqs) st in
    scrobble_requests_queue_ st' = []
    /\ scrobble_requests_active_ st'
       = scrobble_requests_active_ st + Z.of_nat (List.length reqs)
    /\ sent st' = sent st ++ map params_of reqs.
Proof.
  induction reqs as [|request reqs IH]; intros st Hq H0 Hle; simpl.
  - rewrite app_nil_r. repeat split; [assumption | lia].
  - unfold kMaxConcurrentScrobbleRequests in *. simpl List.length in Hle.
    rewrite submit_below_limit by (auto; unfold kMaxConcurrentScrobbleRequests; lia).
    specialize (IH (FlushStep request [] (set_queue [request] st))).
    rewrite FlushStep_queue, FlushStep_active, sent_FlushStep in IH. simpl in IH.
    rewrite int_wrap_small in IH by lia.
    destruct IH as (Hq' & Ha' & Hs'); [reflexivity | lia | lia |].
    repeat split; [assumption | lia |].
    rewrite Hs'. change (sent (set_queue [request] st)) with (sent st).
    now rewrite <- app_assoc.
Qed.

Lemma run_submits_at_limit (reqs : list Request) :
  forall st,
    kMaxConcurrentScrobbleRequests <= scrobble_requests_active_ st ->
    run' (map submit_of reqs) st = set_queue (scrobble_requests_queue_ st ++ reqs) st.
Proof.
  induction reqs as [|request reqs IH]; intros st Hge; simpl.
  - rewrite app_nil_r. symmetry. apply set_queue_same.
  - rewrite submit_at_limit by assumption. rewrite IH by assumption.
    simpl. now rewrite <- app_assoc.
Qed.

Lemma run_submits_split (front back : list Request) (st : State) :
  scrobble_requests_active_ st = 0 ->
  scrobble_requests_queue_ st = [] ->
  List.length front = 3%nat ->
  let st' := run' (map submit_of (front ++ back)) st in
  sent st' = sent st ++ map params_of front
  /\ scrobble_requests_queue_ st' = back
  /\ scrobble_requests_active_ st' = kMaxConcurrentScrobbleRequests.
Proof.
  intros Ha Hq Hf. simpl. rewrite map_app. unfold run. rewrite fold_left_app.
  destruct (run_submits_below_limit front st) as (Hq1 & Ha1 & Hs1);
    [assumption | lia | rewrite Hf, Ha; unfold kMaxConcurrentScrobbleRequests; lia |].
  rewrite Hf, Ha in Ha1. simpl in Ha1.
  fold (run' (map submit_of front) st).
  set (st1 := run' (map submit_of front) st) in *.
  fold (run' (map submit_of back) st1).
  rewrite run_submits_at_limit by (rewrite Ha1; unfold kMaxConcurrentScrobbleRequests; lia).
  rewrite Hq1. repeat split; assumption.
Qed.

(** A completion at the limit, with requests waiting: the head of the queue
    is sent, and nothing more. *)
Lemma completion_sends_head (reply : QNetworkReply) (request : Request)
                            (rest : list Request) (st : State) :
  scrobble_requests_active_ st = kMaxConcurrentScrobbleRequests ->
  scrobble_requests_queue_ st = request :: rest ->
  contains (replies_ st) reply = true ->
  exists error debug,
    ScrobbleReplyReceived' reply st
    = FlushStep request rest (reported error debug (TakeReply reply st)).
Proof.
  intros Ha Hq Hc. unfold ScrobbleReplyReceived. rewrite Hc. simpl.
  destruct (ReadReply_shape GetReplyData ExtractJsonObj QLocale_toString
              reply (TakeReply reply st)) as (error & debug & ->).
  exists error, debug.
  destruct (reported_fields error debug (TakeReply reply st)) as (Rq & Ra & _).
  rewrite TakeReply_queue in Rq. rewrite TakeReply_active, Ha in Ra.
  rewrite FinishCheck_flush.
  rewrite (FlushScrobbleRequests_cons _ request rest);
    [| now rewrite Rq, Hq | rewrite Ra; reflexivity].
  apply FlushScrobbleRequests_stop. right.
  rewrite FlushStep_active, Ra. discriminate.
Qed.

(** C2.  (a) CreateScrobbleRequest puts the request at the tail: the
    requests sent followed by the requests waiting grow by this request, at
    the end, and no error is recorded; at the limit the request is the new
    last element of the queue.  (b) From an idle object, more than
    the limit of submissions send the first three, in order, and leave the
    others queued in order.  (c) At the limit with requests waiting, a
    completion of a reply in flight sends the head of the queue and no
    other request. *)
Theorem submit_enqueues_and_dispatch_is_fifo :
  (forall st song submit start_time,
      let request := {| song_id := song; submission := submit;
                        time_ms := toMSecsSinceEpoch start_time |} in
      let st' := CreateScrobbleRequest song submit start_time st in
      ledger st' = ledger st ++ [params_of request]
      /\ errors_ st' = errors_ st
      /\ (kMaxConcurrentScrobbleRequests <= scrobble_requests_active_ st ->
          scrobble_requests_queue_ st' = scrobble_requests_queue_ st ++ [request]))
  /\ (forall st reqs,
      scrobble_requests_active_ st = 0 ->
      scrobble_requests_queue_ st = [] ->
      Z.of_nat (List.length reqs) > kMaxConcurrentScrobbleRequests ->
      let st' := run' (map submit_of reqs) st in
      sent st' = sent st ++ map params_of (firstn 3 reqs)
      /\ scrobble_requests_queue_ st' = skipn 3 reqs
      /\ List.length (scrobble_requests_queue_ st') = (List.length reqs - 3)%nat
      /\ scrobble_requests_active_ st' = kMaxConcurrentScrobbleRequests)
  /\ (forall st reply request rest,
      scrobble_requests_active_ st = kMaxConcurrentScrobbleRequests ->
      scrobble_requests_queue_ st = request :: rest ->
      contains (replies_ st) reply = true ->
      let st' := ScrobbleReplyReceived' reply st in
      sent st' = sent st ++ [params_of request]
      /\ scrobble_requests_queue_ st' = rest
      /\ scrobble_requests_active_ st' = kMaxConcurrentScrobbleRequests).
Proof.
  split; [|split].
  - intros st song submit start_time request st'. subst st'.
    unfold CreateScrobbleRequest. fold request. simpl.
    set (st1 := set_queue (scrobble_requests_queue_ st ++ [request]) st).
    assert (Hl : ledger st1 = ledger st ++ [params_of request]).
    { unfold ledger, st1. simpl. fold (sent st).
      change (flat_map _ (journal st)) with (sent st).
      now rewrite map_app, app_assoc. }
    destruct (scrobble_requests_active_ st <? kMaxConcurrentScrobbleRequests) eqn:Hlt.
    + rewrite ledger_FlushScrobbleRequests.
      split; [assumption | split; [apply (errors_FlushScrobbleRequests st1)|]].
      intros Hge. apply Z.ltb_lt in Hlt. lia.
    + split; [assumption | split; reflexivity].
  - intros st reqs Ha Hq Hlen st'. subst st'.
    unfold kMaxConcurrentScrobbleRequests in *.
    assert (Hf : List.length (firstn 3 reqs) = 3%nat) by (rewrite length_firstn; lia).
    destruct (run_submits_split (firstn 3 reqs) (skipn 3 reqs) st Ha Hq Hf)
      as (Hs & Hq' & Ha').
    rewrite firstn_skipn in Hs, Hq', Ha'.
    repeat split; try assumption.
    rewrite Hq'. apply length_skipn.
  - intros st reply request rest Ha Hq Hc st'. subst st'.
    destruct (completion_sends_head reply request rest st Ha Hq Hc)
      as (error & debug & ->).
    rewrite sent_FlushStep, sent_reported, FlushStep_queue, FlushStep_active.
    destruct (reported_fields error debug (TakeReply reply st)) as (_ & Ra & _).
    rewrite Ra, TakeReply_active, Ha. repeat split.
    unfold sent. simpl. rewrite !flat_map_app. simpl. now rewrite !app_nil_r.
Qed.

End SubmitFacts.

(** ** QString::arg on the error template *)

Lemma append_assoc (a b c : string) : ((a ++ b) ++ c = a ++ (b ++ c))%string.
Proof. induction a as [|x a IH]; simpl; [reflexivity | now rewrite IH]. Qed.

Lemma append_nil_r (a : string) : (a ++ "")%string = a.
Proof. induction a as [|x a IH]; simpl; [reflexivity | now rewrite IH]. Qed.

Lemma ends_with_append (c : ascii) (body : string) :
  ends_with c (body ++ String c "") = true.
Proof.
  induction body as [|x body IH]; simpl; [apply Ascii.eqb_refl|].
  destruct body; simpl in *; exact IH.
Qed.

(** The scanner loses no character. *)
Lemma tokens_text_scan (s : string) :
  forall st, tokens_text (QStr.scanEscapes st s) = (pending st ++ s)%string.
Proof.
  induction s as [|c s IH]; intros st.
  - destruct st; reflexivity.
  - assert (Hresume :
      tokens_text (if Ascii.eqb c QStr.percent then QStr.scanEscapes QStr.Percent s
                   else QStr.Text c :: QStr.scanEscapes QStr.Plain s) = String c s).
    { destruct (Ascii.eqb_spec c QStr.percent) as [->|Hne].
      - rewrite IH. reflexivity.
      - simpl. rewrite IH. reflexivity. }
    destruct st as [| | |l d t]; simpl.
    + exact Hresume.
    + destruct (Ascii.eqb_spec c QStr.letterL) as [->|Hne].
      * rewrite IH. reflexivity.
      * destruct (QStr.digitValue c).
        -- rewrite IH. reflexivity.
        -- simpl. now rewrite Hresume.
    + destruct (QStr.digitValue c).
      * rewrite IH. reflexivity.
      * simpl. now rewrite Hresume.
    + destruct (QStr.digitValue c).
      * simpl. rewrite IH. simpl. now rewrite append_assoc.
      * simpl. now rewrite Hresume.
Qed.

(** A plain character closes whatever the scanner had pending, so a text
    that starts with one is scanned apart from what precedes it. *)
Lemma scan_append_plain (c : ascii) (rest : string) :
  plain_char c = true ->
  forall (s : string) (st : QStr.ScanState),
    QStr.scanEscapes st (s ++ String c rest)
    = QStr.scanEscapes st s ++ QStr.Text c :: QStr.scanEscapes QStr.Plain rest.
Proof.
  unfold plain_char. intros Hc.
  apply andb_prop in Hc. destruct Hc as [Hc Hd].
  apply andb_prop in Hc. destruct Hc as [Hp Hl].
  apply negb_true_iff in Hp, Hl.
  induction s as [|a s IH]; intros st.
  - simpl. rewrite Hp. destruct st; simpl; try reflexivity.
    + rewrite Hl. destruct (QStr.digitValue c); [discriminate | reflexivity].
    + destruct (QStr.digitValue c); [discriminate | reflexivity].
    + destruct (QStr.digitValue c); [discriminate | reflexivity].
  - simpl.
    destruct st; destruct (Ascii.eqb a QStr.percent); destruct (Ascii.eqb a QStr.letterL);
      destruct (QStr.digitValue a); rewrite ?IH; reflexivity.
Qed.

Lemma min_escape_app (ts1 ts2 : list QStr.ArgToken) :
  QStr.min_escape (ts1 ++ ts2)
  = match QStr.min_escape ts1, QStr.min_escape ts2 with
    | None, m => m
    | Some m, None => Some m
    | Some m1, Some m2 => Some (Nat.min m1 m2)
    end.
Proof.
  induction ts1 as [|[c|l n t] ts1 IH]; simpl.
  - now destruct (QStr.min_escape ts2).
  - assumption.
  - rewrite IH. destruct (QStr.min_escape ts1), (QStr.min_escape ts2); try reflexivity.
    now rewrite Nat.min_assoc.
Qed.

Lemma replaceArgEscapes_app (ts1 ts2 : list QStr.ArgToken) (m : nat) (a la : string) :
  QStr.replaceArgEscapes (ts1 ++ ts2) m a la
  = (QStr.replaceArgEscapes ts1 m a la ++ QStr.replaceArgEscapes ts2 m a la)%string.
Proof.
  induction ts1 as [|[c|l n t] ts1 IH]; simpl; [reflexivity | now rewrite IH |].
  now rewrite IH, append_assoc.
Qed.

Lemma min_escape_above (k : nat) (ts : list QStr.ArgToken) :
  (forall m, QStr.min_escape ts = Some m -> (k < m)%nat) -> markers_above k ts = true.
Proof.
  induction ts as [|[c|l n t] ts IH]; simpl; intros H; [reflexivity | now apply IH |].
  destruct (QStr.min_escape ts) as [m|].
  - specialize (H _ eq_refl). apply andb_true_intro. split.
    + apply Nat.ltb_lt. lia.
    + apply IH. intros m' [= <-]. lia.
  - specialize (H _ eq_refl). apply andb_true_intro. split.
    + now apply Nat.ltb_lt.
    + apply IH. discriminate.
Qed.

(** Markers numbered above [k] are copied when marker [k] is replaced. *)
Lemma replaceArgEscapes_above (k : nat) (ts : list QStr.ArgToken) (a la : string) :
  markers_above k ts = true -> QStr.replaceArgEscapes ts k a la = tokens_text ts.
Proof.
  induction ts as [|[c|l n t] ts IH]; simpl; intros H; [reflexivity | now rewrite IH |].
  apply andb_prop in H. destruct H as [Hn H]. apply Nat.ltb_lt in Hn.
  destruct (Nat.eqb_spec n k); [lia|]. now rewrite IH.
Qed.

(** The first call, [.arg(message)], puts the message in place of [%1]. *)
Lemma arg_message (message : string) :
  QStr.arg "%1 (%2)" message = (message ++ " (%2)")%string.
Proof. reflexivity. Qed.

Lemma scan_message_template (message : string) :
  QStr.scanEscapes QStr.Plain (message ++ " (%2)")
  = QStr.scanEscapes QStr.Plain message
    ++ [QStr.Text " "; QStr.Text "("; QStr.Escape false 2 "%2"; QStr.Text ")"].
Proof. now rewrite scan_append_plain. Qed.

(** The second call, [.arg(code)], scans the message as well.  When the
    message has no marker numbered 2 or less, [%2] is the lowest marker and
    the code takes its place. *)
Lemma arg_code_clean (message number_text locale_text : string) :
  (forall m, lowest_marker message = Some m -> (2 < m)%nat) ->
  QStr.arg_with (message ++ " (%2)") number_text locale_text
  = (message ++ " (" ++ number_text ++ ")")%string.
Proof.
  intros Hlow. unfold QStr.arg_with. rewrite scan_message_template.
  rewrite min_escape_app. fold (lowest_marker message).
  pose proof (min_escape_above 2 _ Hlow) as Habove.
  simpl QStr.min_escape.
  assert (Hrep : QStr.replaceArgEscapes
                   (QStr.scanEscapes QStr.Plain message
                    ++ [QStr.Text " "; QStr.Text "("; QStr.Escape false 2 "%2"; QStr.Text ")"])
                   2 number_text locale_text
                 = (message ++ " (" ++ number_text ++ ")")%string).
  { rewrite replaceArgEscapes_app, replaceArgEscapes_above by exact Habove.
    rewrite tokens_text_scan. reflexivity. }
  destruct (lowest_marker message) as [m|].
  - specialize (Hlow _ eq_refl). replace (Nat.min m 2) with 2%nat by lia. exact Hrep.
  - exact Hrep.
Qed.

(** Whatever the message, the text of the protocol branch ends with the
    closing parenthesis of the template. *)
Lemma arg_code_ends (message number_text locale_text : string) :
  ends_with ")" (QStr.arg_with (message ++ " (%2)") number_text locale_text) = true.
Proof.
  unfold QStr.arg_with. rewrite scan_message_template.
  change [QStr.Text " "; QStr.Text "("; QStr.Escape false 2 "%2"; QStr.Text ")"]
    with ([QStr.Text " "; QStr.Text "("; QStr.Escape false 2 "%2"] ++ [QStr.Text ")"]).
  rewrite app_assoc.
  destruct (QStr.min_escape _) as [m|].
  - rewrite replaceArgEscapes_app. apply ends_with_append.
  - change (message ++ " (%2)")%string with (message ++ (" (%2" ++ ")"))%string.
    rewrite <- append_assoc. apply ends_with_append.
Qed.

(** ** Reading a reply *)

Lemma value_absent (o : QJsonObject) (key : string) :
  Json.contains o key = false -> Json.value o key = JUndefined.
Proof.
  induction o as [|[k v] o IH]; simpl; [reflexivity|].
  destruct (String.eqb k key); [discriminate | exact IH].
Qed.

Lemma value_present (o : QJsonObject) (key : string) :
  Json.value o key <> JUndefined -> Json.contains o key = true.
Proof.
  intros H. destruct (Json.contains o key) eqn:E; [reflexivity|].
  now apply value_absent in E.
Qed.

Lemma contains_nonempty (o : QJsonObject) (key : string) :
  Json.contains o key = true -> Json.isEmpty o = false.
Proof. destruct o; [discriminate | reflexivity]. Qed.

Lemma errors_FinishCheck (st : State) :
  errors_ (FinishCheck st) = errors_ st /\ qLog (FinishCheck st) = qLog st.
Proof. rewrite FinishCheck_flush. apply errors_FlushScrobbleRequests. Qed.

Lemma errors_reported (error : QString) (debug : QVariant) (st : State) :
  errors_ (reported error debug st)
  = errors_ st ++ (if QStr.isEmpty error then [] else [error]).
Proof.
  unfold reported. destruct (QStr.isEmpty error); destruct debug; simpl;
    try reflexivity; now rewrite app_nil_r.
Qed.

Lemma protocol_text_ends (message : QString) (code : Z) :
  ends_with ")" (protocol_text message code) = true.
Proof.
  unfold protocol_text.
  rewrite <- !append_assoc. apply ends_with_append.
Qed.

Section ReadFacts.

Variable GetReplyData : QNetworkReply -> QByteArray.
Variable ExtractJsonObj : QByteArray -> QJsonObject.
Variable QLocale_toString : Z -> QString.

Local Abbreviation arg_int' := (arg_int QLocale_toString).
Local Abbreviation ReadReply' := (ReadReply GetReplyData ExtractJsonObj QLocale_toString).
Local Abbreviation ScrobbleReplyReceived' :=
  (ScrobbleReplyReceived GetReplyData ExtractJsonObj QLocale_toString).
Local Abbreviation run' := (run GetReplyData ExtractJsonObj QLocale_toString).

Variable reply : QNetworkReply.

Local Abbreviation data := (GetReplyData reply).
Local Abbreviation doc := (ExtractJsonObj (GetReplyData reply)).
Local Abbreviation json_error := (Json.value (ExtractJsonObj (GetReplyData reply)) "error").
Local Abbreviation error_obj :=
  (Json.toObject (Json.value (ExtractJsonObj (GetReplyData reply)) "error")).

(** The four ways through lines 101-137. *)
Lemma ReadReply_silent (st : State) :
  QStr.isEmpty data = true \/ Json.isEmpty doc = true \/ Json.contains doc "error" = false ->
  ReadReply' reply st = FinishCheck st.
Proof.
  intros H. unfold ReadReply.
  destruct (QStr.isEmpty data); [reflexivity|].
  destruct (Json.isEmpty doc); [reflexivity|].
  destruct (Json.contains doc "error"); [|reflexivity].
  destruct H as [H|[H|H]]; discriminate.
Qed.

Lemma ReadReply_not_object (st : State) :
  QStr.isEmpty data = false ->
  Json.contains doc "error" = true ->
  Json.isObject json_error = false ->
  ReadReply' reply st
  = FinishCheck (reported "Json error is not an object." (Some doc) st).
Proof.
  intros Hd Hc Ho. unfold ReadReply.
  rewrite Hd, (contains_nonempty _ _ Hc), Hc, Ho. simpl negb. cbv iota.
  rewrite Error_reported. apply FinishCheck_twice.
Qed.

Lemma ReadReply_missing (st : State) :
  QStr.isEmpty data = false ->
  Json.contains doc "error" = true ->
  Json.isObject json_error = true ->
  Json.contains error_obj "code" = false \/ Json.contains error_obj "message" = false ->
  ReadReply' reply st
  = FinishCheck
      (reported "Json error object is missing code or message." (Some error_obj) st).
Proof.
  intros Hd Hc Ho Hm. unfold ReadReply.
  rewrite Hd, (contains_nonempty _ _ Hc), Hc, Ho. simpl negb. cbv iota.
  assert (Hcond : negb (Json.isEmpty error_obj) && Json.contains error_obj "code"
                  && Json.contains error_obj "message" = false).
  { destruct Hm as [-> | ->].
    - now rewrite andb_false_r.
    - now rewrite andb_false_r. }
  rewrite Hcond. rewrite Error_reported. apply FinishCheck_twice.
Qed.

Lemma ReadReply_protocol (st : State) :
  QStr.isEmpty data = false ->
  Json.contains doc "error" = true ->
  Json.isObject json_error = true ->
  Json.contains error_obj "code" = true ->
  Json.contains error_obj "message" = true ->
  ReadReply' reply st
  = FinishCheck
      (reported (arg_int' (QStr.arg "%1 (%2)" (Json.toString (Json.value error_obj "message")))
                          (Json.toInt (Json.value error_obj "code")))
                None st).
Proof.
  intros Hd Hc Ho Hcode Hmsg. unfold ReadReply.
  rewrite Hd, (contains_nonempty _ _ Hc), Hc, Ho. simpl negb. cbv iota.
  rewrite (contains_nonempty _ _ Hcode), Hcode, Hmsg. simpl andb. cbv iota.
  rewrite Error_reported. apply FinishCheck_twice.
Qed.

(** The text of the protocol branch is never empty and ends with ")". *)
Lemma protocol_branch_text (message : QString) (code : Z) :
  ends_with ")" (arg_int' (QStr.arg "%1 (%2)" message) code) = true.
Proof. rewrite arg_message. apply arg_code_ends. Qed.

(** What a completion of a reply in flight leaves in [errors_], given the
    report its reading ends with. *)
Lemma completion_errors (st : State) (error : QString) (debug : QVariant) :
  contains (replies_ st) reply = true ->
  ReadReply' reply (TakeReply reply st)
  = FinishCheck (reported error debug (TakeReply reply st)) ->
  errors_ (ScrobbleReplyReceived' reply st)
  = errors_ st ++ (if QStr.isEmpty error then [] else [error]).
Proof.
  intros Hc Hread. unfold ScrobbleReplyReceived. rewrite Hc. simpl negb. cbv iota.
  rewrite Hread. rewrite (proj1 (errors_FinishCheck _)). now rewrite errors_reported.
Qed.

Lemma completion_drains (st : State) :
  contains (replies_ st) reply = true ->
  scrobble_requests_queue_ (ScrobbleReplyReceived' reply st) = []
  \/ kMaxConcurrentScrobbleRequests
     <= scrobble_requests_active_ (ScrobbleReplyReceived' reply st).
Proof.
  intros Hc. unfold ScrobbleReplyReceived. rewrite Hc. simpl negb. cbv iota.
  destruct (ReadReply_shape GetReplyData ExtractJsonObj QLocale_toString
              reply (TakeReply reply st)) as (error & debug & ->).
  apply FinishCheck_exit.
Qed.

End ReadFacts.

Lemma ends_with_nonempty (c : ascii) (s : string) :
  ends_with c s = true -> QStr.isEmpty s = false.
Proof. destruct s; [discriminate | reflexivity]. Qed.

Lemma toInt_whole (code : Z) :
  Json.INT_MIN <= code <= Json.INT_MAX -> Json.toInt (JDouble (code # 1)) = code.
Proof.
  intros [Hlo Hhi]. unfold Json.toInt. simpl Qnum. simpl Qden.
  rewrite Z.mod_1_r, Z.div_1_r. simpl Z.eqb.
  apply Z.leb_le in Hlo, Hhi. now rewrite Hlo, Hhi.
Qed.

Lemma value_object_present (o : QJsonObject) (key : string) (fields : QJsonObject) :
  Json.value o key = JObject fields ->
  Json.contains o key = true /\ Json.isObject (Json.value o key) = true
  /\ Json.toObject (Json.value o key) = fields.
Proof.
  intros H. split; [|now rewrite H].
  apply value_present. rewrite H. discriminate.
Qed.

Section Classification.

Variable GetReplyData : QNetworkReply -> QByteArray.
Variable ExtractJsonObj : QByteArray -> QJsonObject.
Variable QLocale_toString : Z -> QString.

Local Abbreviation arg_int' := (arg_int QLocale_toString).
Local Abbreviation ScrobbleReplyReceived' :=
  (ScrobbleReplyReceived GetReplyData ExtractJsonObj QLocale_toString).

Variable reply : QNetworkReply.
Variable st : State.

Local Abbreviation data := (GetReplyData reply).
Local Abbreviation doc := (ExtractJsonObj (GetReplyData reply)).
Local Abbreviation json_error := (Json.value (ExtractJsonObj (GetReplyData reply)) "error").
Local Abbreviation error_obj :=
  (Json.toObject (Json.value (ExtractJsonObj (GetReplyData reply)) "error")).

(** Both keys present: the protocol branch, whatever the values are. *)
Lemma protocol_branch_errors (fields : QJsonObject) :
  contains (replies_ st) reply = true ->
  QStr.isEmpty data = false ->
  json_error = JObject fields ->
  Json.contains fields "code" = true ->
  Json.contains fields "message" = true ->
  errors_ (ScrobbleReplyReceived' reply st)
  = errors_ st
    ++ [arg_int' (QStr.arg "%1 (%2)" (Json.toString (Json.value fields "message")))
                 (Json.toInt (Json.value fields "code"))].
Proof.
  intros Hin Hd He Hcode Hmsg.
  destruct (value_object_present _ _ _ He) as (Hc & Ho & Hf).
  rewrite (completion_errors GetReplyData ExtractJsonObj QLocale_toString reply st
             (arg_int' (QStr.arg "%1 (%2)" (Json.toString (Json.value fields "message")))
                       (Json.toInt (Json.value fields "code")))
             None Hin).
  - now rewrite (ends_with_nonempty _ _ (protocol_branch_text QLocale_toString _ _)).
  - rewrite <- Hf. apply ReadReply_protocol; try assumption; now rewrite Hf.
Qed.

(** C4, as amended.  The reply of a request in flight carries a document
    whose [error] is an object with a [code] and a string [message], and the
    message holds no place marker numbered 2 or less.  Then [errors_] grows
    by the message followed by the code, as an int, in parentheses; a code
    that is a whole number in the range of int is printed as it is; and for
    code 70 and message "bad session" the text is "bad session (70)". *)
Theorem protocol_error_is_message_then_code (fields : QJsonObject) (message : QString) :
  contains (replies_ st) reply = true ->
  QStr.isEmpty data = false ->
  json_error = JObject fields ->
  Json.contains fields "code" = true ->
  Json.value fields "message" = JString message ->
  (forall m, lowest_marker message = Some m -> (2 < m)%nat) ->
  let st' := ScrobbleReplyReceived' reply st in
  errors_ st'
  = errors_ st ++ [protocol_text message (Json.toInt (Json.value fields "code"))]
  /\ (forall code,
        Json.INT_MIN <= code <= Json.INT_MAX ->
        Json.value fields "code" = JDouble (code # 1) ->
        errors_ st' = errors_ st ++ [protocol_text message code])
  /\ (Json.value fields "code" = JDouble (70 # 1) ->
      message = "bad session" ->
      errors_ st' = errors_ st ++ ["bad session (70)"]).
Proof.
  intros Hin Hd He Hcode Hmsg Hclean st'.
  assert (Hgen : errors_ st'
                 = errors_ st
                   ++ [protocol_text message (Json.toInt (Json.value fields "code"))]).
  { subst st'. rewrite (protocol_branch_errors fields Hin Hd He Hcode).
    - rewrite Hmsg. simpl Json.toString. rewrite arg_message.
      unfold arg_int. now rewrite arg_code_clean.
    - apply value_present. rewrite Hmsg. discriminate. }
  split; [exact Hgen|]. split.
  - intros code Hrange Hv. rewrite Hgen, Hv. now rewrite toInt_whole.
  - intros Hv ->. rewrite Hgen, Hv. reflexivity.
Qed.

(** C5.  The reply of a request in flight carries a document whose [error]
    is no object, or is an object without [code] or without [message].  Then
    [errors_] grows by one diagnostic, which is not empty, is not of the
    form "message (code)", and is not a text the protocol branch can
    produce; and the completion ends with the queue drained as far as the
    limit allows. *)
Theorem malformed_error_is_reported :
  contains (replies_ st) reply = true ->
  QStr.isEmpty data = false ->
  Json.contains doc "error" = true ->
  Json.isObject json_error = false
  \/ Json.contains error_obj "code" = false
  \/ Json.contains error_obj "message" = false ->
  let st' := ScrobbleReplyReceived' reply st in
  let diagnostic :=
    if Json.isObject json_error
    then "Json error object is missing code or message."
    else "Json error is not an object." in
  errors_ st' = errors_ st ++ [diagnostic]
  /\ QStr.isEmpty diagnostic = false
  /\ (forall message code, diagnostic <> protocol_text message code)
  /\ (forall message code, diagnostic <> arg_int' (QStr.arg "%1 (%2)" message) code)
  /\ (scrobble_requests_queue_ st' = []
      \/ kMaxConcurrentScrobbleRequests <= scrobble_requests_active_ st').
Proof.
  intros Hin Hd Hc Hbad st' diagnostic.
  assert (Hdot : ends_with ")" diagnostic = false)
    by (unfold diagnostic; destruct (Json.isObject json_error); reflexivity).
  split; [|split; [|split; [|split]]].
  - subst st' diagnostic. destruct (Json.isObject json_error) eqn:Ho.
    + rewrite (completion_errors GetReplyData ExtractJsonObj QLocale_toString reply st
                 "Json error object is missing code or message." (Some error_obj) Hin);
        [reflexivity|].
      apply ReadReply_missing; try assumption.
      destruct Hbad as [H|H]; [discriminate | exact H].
    + rewrite (completion_errors GetReplyData ExtractJsonObj QLocale_toString reply st
                 "Json error is not an object." (Some doc) Hin);
        [reflexivity|].
      now apply ReadReply_not_object.
  - unfold diagnostic. destruct (Json.isObject json_error); reflexivity.
  - intros message code Heq. rewrite Heq, protocol_text_ends in Hdot. discriminate.
  - intros message code Heq. rewrite Heq, protocol_branch_text in Hdot. discriminate.
  - now apply completion_drains.
Qed.

(** C6.  The reply of a request in flight has no bytes, or bytes that give
    no document, or a document without [error].  Then nothing is added to
    [errors_] or to the log: the completion is the bookkeeping followed by
    FinishCheck. *)
Theorem silent_replies_are_success :
  contains (replies_ st) reply = true ->
  QStr.isEmpty data = true \/ Json.isEmpty doc = true \/ Json.contains doc "error" = false ->
  let st' := ScrobbleReplyReceived' reply st in
  errors_ st' = errors_ st
  /\ qLog st' = qLog st
  /\ st' = FinishCheck (TakeReply reply st).
Proof.
  intros Hin Hsilent st'.
  assert (Heq : st' = FinishCheck (TakeReply reply st)).
  { subst st'. unfold ScrobbleReplyReceived. rewrite Hin. simpl negb. cbv iota.
    now apply ReadReply_silent. }
  rewrite Heq. destruct (errors_FinishCheck (TakeReply reply st)) as [He Hl].
  rewrite He, Hl. repeat split.
Qed.

(** C10.  Only the presence of [code] and [message] is tested.  With both
    keys in the [error] object the protocol branch is taken whatever their
    values: the text is built from [toString] of the message and [toInt] of
    the code, and when the code is no number and the message no string it
    is " (0)". *)
Theorem protocol_branch_tests_presence_only (fields : QJsonObject) :
  contains (replies_ st) reply = true ->
  QStr.isEmpty data = false ->
  json_error = JObject fields ->
  Json.contains fields "code" = true ->
  Json.contains fields "message" = true ->
  let st' := ScrobbleReplyReceived' reply st in
  errors_ st'
  = errors_ st
    ++ [arg_int' (QStr.arg "%1 (%2)" (Json.toString (Json.value fields "message")))
                 (Json.toInt (Json.value fields "code"))]
  /\ (Json.isDouble (Json.value fields "code") = false ->
      Json.isString (Json.value fields "message") = false ->
      Json.toInt (Json.value fields "code") = 0
      /\ Json.toString (Json.value fields "message") = ""
      /\ errors_ st' = errors_ st ++ [" (0)"]).
Proof.
  intros Hin Hd He Hcode Hmsg st'.
  pose proof (protocol_branch_errors fields Hin Hd He Hcode Hmsg) as Hgen.
  split; [exact Hgen|].
  intros Hnum Hstr.
  assert (Hi : Json.toInt (Json.value fields "code") = 0)
    by (destruct (Json.value fields "code"); try reflexivity; discriminate).
  assert (Hs : Json.toString (Json.value fields "message") = "")
    by (destruct (Json.value fields "message"); try reflexivity; discriminate).
  repeat split; try assumption.
  subst st'. rewrite Hgen, Hi, Hs. reflexivity.
Qed.

End Classification.

(** ** Completion and teardown *)

Lemma FinishCheck_balance (st : State) :
  Inv st ->
  scrobble_requests_active_ (FinishCheck st)
    + Z.of_nat (List.length (scrobble_requests_queue_ (FinishCheck st)))
  = scrobble_requests_active_ st + Z.of_nat (List.length (scrobble_requests_queue_ st)).
Proof.
  intros HI.
  apply (FinishCheck_keeps
           (fun s => Inv s /\
              scrobble_requests_active_ s
                + Z.of_nat (List.length (scrobble_requests_queue_ s))
              = scrobble_requests_active_ st
                + Z.of_nat (List.length (scrobble_requests_queue_ st))));
    [|split; [assumption | reflexivity]].
  intros s request rest Hq Hlt [HIs Hsum]. split; [now apply Inv_FlushStep|].
  rewrite FlushStep_active, FlushStep_queue, <- Hsum, Hq.
  destruct HIs as [Hr _ _ _ _]. unfold kMaxConcurrentScrobbleRequests in *.
  rewrite int_wrap_small by lia. simpl List.length. lia.
Qed.

Lemma FinishCheck_gone (reply : QNetworkReply) (st : State) :
  ~ In reply (replies_ st) -> (reply < next_reply st)%nat ->
  ~ In reply (replies_ (FinishCheck st)).
Proof.
  intros Hout Hlt.
  apply (FinishCheck_keeps
           (fun s => ~ In reply (replies_ s) /\ (reply < next_reply s)%nat));
    [|split; assumption].
  intros s request rest _ _ [Hs Hn]. rewrite FlushStep_replies, FlushStep_next_reply.
  split; [|lia]. intros Hin. apply in_app_or in Hin. destruct Hin as [Hin|[Heq|[]]].
  - now apply Hs.
  - lia.
Qed.

Lemma flat_map_same {A B : Type} (f g : A -> list B) (l : list A) :
  (forall x, In x l -> f x = g x) -> flat_map f l = flat_map g l.
Proof.
  induction l as [|a l IH]; simpl; intros H; [reflexivity|].
  rewrite (H a) by now left. f_equal. apply IH. intros x Hx. apply H. now right.
Qed.

Lemma contains_removeAll_other (l : list QNetworkReply) (reply r : QNetworkReply) :
  r <> reply -> contains (removeAll l reply) r = contains l r.
Proof.
  intros Hne. destruct (contains l r) eqn:E.
  - apply contains_In. apply removeAll_In. split; [now apply contains_In | assumption].
  - apply contains_not_In. intros Hin. apply removeAll_In in Hin.
    apply contains_not_In in E. tauto.
Qed.

Lemma about_teardown_ops (st : State) (reply r : QNetworkReply) :
  filter (about reply) (teardown_ops st r)
  = if Nat.eqb reply r then teardown_ops st r else [].
Proof.
  unfold teardown_ops. destruct (isRunning r st); simpl;
    destruct (Nat.eqb reply r); reflexivity.
Qed.

(** The calls about one reply, among the calls made for a list of distinct
    replies. *)
Lemma about_flat_map (st : State) (reply : QNetworkReply) (l : list QNetworkReply) :
  NoDup l ->
  filter (about reply) (flat_map (teardown_ops st) l)
  = if contains l reply then teardown_ops st reply else [].
Proof.
  induction l as [|a l IH]; intros Hnd; [reflexivity|].
  inversion Hnd as [|? ? Hna Hnd']; subst.
  change (flat_map (teardown_ops st) (a :: l))
    with (teardown_ops st a ++ flat_map (teardown_ops st) l).
  rewrite filter_app, about_teardown_ops, IH by assumption.
  unfold contains. simpl existsb. fold (contains l reply).
  destruct (Nat.eqb_spec reply a) as [->|Hne]; cbn [orb].
  - apply contains_not_In in Hna. rewrite Hna. apply app_nil_r.
  - reflexivity.
Qed.

Section Lifecycle.

Variable GetReplyData : QNetworkReply -> QByteArray.
Variable ExtractJsonObj : QByteArray -> QJsonObject.
Variable QLocale_toString : Z -> QString.

Local Abbreviation ReadReply' := (ReadReply GetReplyData ExtractJsonObj QLocale_toString).
Local Abbreviation ScrobbleReplyReceived' :=
  (ScrobbleReplyReceived GetReplyData ExtractJsonObj QLocale_toString).
Local Abbreviation emit_finished' :=
  (emit_finished GetReplyData ExtractJsonObj QLocale_toString).
Local Abbreviation DestructorStep' :=
  (DestructorStep GetReplyData ExtractJsonObj QLocale_toString).
Local Abbreviation DestructorLoop' :=
  (DestructorLoop GetReplyData ExtractJsonObj QLocale_toString).
Local Abbreviation Destructor' := (Destructor GetReplyData ExtractJsonObj QLocale_toString).
Local Abbreviation run' := (run GetReplyData ExtractJsonObj QLocale_toString).

Lemma ScrobbleReplyReceived_unknown (reply : QNetworkReply) (st : State) :
  contains (replies_ st) reply = false -> ScrobbleReplyReceived' reply st = st.
Proof. intros H. unfold ScrobbleReplyReceived. now rewrite H. Qed.

(** After its completion a reply is no longer in [replies_], and the
    replies started meanwhile are other replies. *)
Lemma ScrobbleReplyReceived_gone (reply : QNetworkReply) (st : State) :
  Inv st -> contains (replies_ (ScrobbleReplyReceived' reply st)) reply = false.
Proof.
  intros HI. destruct (contains (replies_ st) reply) eqn:Hc.
  - unfold ScrobbleReplyReceived. rewrite Hc. simpl negb. cbv iota.
    destruct (ReadReply_shape GetReplyData ExtractJsonObj QLocale_toString
                reply (TakeReply reply st)) as (error & debug & ->).
    apply contains_not_In.
    destruct (reported_fields error debug (TakeReply reply st))
      as (_ & _ & Hr & Hn & _).
    apply FinishCheck_gone.
    + rewrite Hr, TakeReply_replies. intros Hin. apply removeAll_In in Hin. tauto.
    + rewrite Hn. simpl. apply contains_In in Hc.
      pose proof (inv_fresh _ HI) as Hf. rewrite Forall_forall in Hf. now apply Hf.
  - now rewrite ScrobbleReplyReceived_unknown.
Qed.

(** What a completion of a reply in flight comes to: the bookkeeping, at
    most one report, FinishCheck. *)
Lemma completion_shape (reply : QNetworkReply) (st : State) :
  contains (replies_ st) reply = true ->
  exists error debug,
    ScrobbleReplyReceived' reply st
    = FinishCheck (reported error debug (TakeReply reply st)).
Proof.
  intros Hc. unfold ScrobbleReplyReceived. rewrite Hc. simpl negb. cbv iota.
  apply ReadReply_shape.
Qed.

(** One turn of the destructor's loop on an object whose connections are
    its replies. *)
Lemma DestructorStep_fields (reply : QNetworkReply) (rest : list QNetworkReply)
                            (st : State) :
  connected st = reply :: rest -> NoDup (reply :: rest) ->
  let st' := DestructorStep' reply rest st in
  replies_ st' = rest /\ connected st' = rest
  /\ scrobble_requests_queue_ st' = scrobble_requests_queue_ st
  /\ scrobble_requests_active_ st' = scrobble_requests_active_ st
  /\ errors_ st' = errors_ st /\ qLog st' = qLog st
  /\ journal st' = journal st ++ teardown_ops st reply
  /\ (forall r, r <> reply -> isRunning r st' = isRunning r st).
Proof.
  intros Hcn Hnd.
  assert (Hrest : contains rest reply = false).
  { apply contains_not_In. now inversion Hnd. }
  unfold DestructorStep, teardown_ops, isRunning, abort, emit_finished, disconnect.
  simpl. rewrite Hcn, (removeAll_head _ _ Hnd).
  destruct (contains (running st) reply) eqn:Hrun; simpl; rewrite ?Hrest; simpl;
    repeat split; rewrite <- ?app_assoc; try reflexivity.
  intros r Hne. now apply contains_removeAll_other.
Qed.

Lemma DestructorLoop_fields (fuel : nat) :
  forall st,
    connected st = replies_ st -> NoDup (replies_ st) ->
    (List.length (replies_ st) <= fuel)%nat ->
    let st' := DestructorLoop' fuel st in
    replies_ st' = [] /\ connected st' = []
    /\ scrobble_requests_queue_ st' = scrobble_requests_queue_ st
    /\ scrobble_requests_active_ st' = scrobble_requests_active_ st
    /\ errors_ st' = errors_ st /\ qLog st' = qLog st
    /\ journal st' = journal st ++ flat_map (teardown_ops st) (replies_ st).
Proof.
  induction fuel as [|fuel IH]; intros st Hcn Hnd Hlen; simpl.
  - destruct (replies_ st) eqn:Hr; [|simpl in Hlen; lia].
    simpl. rewrite app_nil_r. repeat split; assumption.
  - destruct (replies_ st) as [|reply rest] eqn:Hr.
    + simpl. rewrite app_nil_r. repeat split; assumption.
    + destruct (DestructorStep_fields reply rest st Hcn Hnd)
        as (Sr & Sc & Sq & Sa & Se & Sl & Sj & Srun).
      specialize (IH (DestructorStep' reply rest st)).
      rewrite Sr, Sc in IH. inversion Hnd as [|? ? Hna Hnd']; subst.
      destruct IH as (Ir & Ic & Iq & Ia & Ie & Il & Ij);
        [reflexivity | assumption | simpl in Hlen; lia |].
      repeat split; try congruence.
      rewrite Ij, Sj, <- app_assoc.
      change (flat_map (teardown_ops st) (reply :: rest))
        with (teardown_ops st reply ++ flat_map (teardown_ops st) rest).
      do 2 f_equal. apply flat_map_same. intros r Hin. unfold teardown_ops.
      rewrite Srun; [reflexivity|]. intros ->. contradiction.
Qed.

Lemma emit_finished_unconnected (reply : QNetworkReply) (st : State) :
  connected st = [] -> emit_finished' reply st = st.
Proof. intros H. unfold emit_finished. now rewrite H. Qed.

(** C3, as amended.  For a request in flight whose completion is processed,
    whatever the reply holds: the bookkeeping lowers the counter by exactly
    one; reading the reply raises it only by the requests it takes off the
    queue; a second completion of the same reply changes nothing.  The
    destructor leaves the counter as it is. *)
Theorem processed_completion_decrements_once (evs : list Event) (reply : QNetworkReply) :
  let st := run' evs SubsonicScrobbleRequest in
  contains (replies_ st) reply = true ->
  let taken := TakeReply reply st in
  let st' := ScrobbleReplyReceived' reply st in
  scrobble_requests_active_ taken = scrobble_requests_active_ st - 1
  /\ st' = ReadReply' reply taken
  /\ scrobble_requests_active_ st' - scrobble_requests_active_ taken
     = Z.of_nat (List.length (scrobble_requests_queue_ st))
       - Z.of_nat (List.length (scrobble_requests_queue_ st'))
  /\ ScrobbleReplyReceived' reply st' = st'
  /\ scrobble_requests_active_ (Destructor' st) = scrobble_requests_active_ st.
Proof.
  intros st Hc taken st'.
  assert (HI : Inv st) by apply Inv_run, Inv_init.
  assert (Hin : In reply (replies_ st)) by now apply contains_In.
  assert (HIt : Inv taken) by now apply Inv_TakeReply.
  pose proof (Inv_positive reply st HI Hin) as Hpos.
  assert (Hread : st' = ReadReply' reply taken).
  { subst st'. unfold ScrobbleReplyReceived. now rewrite Hc. }
  split; [|split; [|split; [|split]]].
  - subst taken. rewrite TakeReply_active. apply int_wrap_small.
    destruct HI as [Hr _ _ _ _]. unfold kMaxConcurrentScrobbleRequests in Hr. lia.
  - exact Hread.
  - rewrite Hread.
    destruct (ReadReply_shape GetReplyData ExtractJsonObj QLocale_toString reply taken)
      as (error & debug & ->).
    pose proof (FinishCheck_balance _ (Inv_reported error debug taken HIt)) as Hb.
    destruct (reported_fields error debug taken) as (Rq & Ra & _).
    rewrite Rq, Ra in Hb. subst taken. rewrite TakeReply_queue in Hb. lia.
  - apply ScrobbleReplyReceived_unknown. now apply ScrobbleReplyReceived_gone.
  - unfold Destructor.
    apply (DestructorLoop_fields (List.length (replies_ st)) st);
      [apply (inv_connected _ HI) | apply (inv_nodup _ HI) | apply Nat.le_refl].
Qed.

(** C7.  ScrobbleReplyReceived for a reply that is not in [replies_] changes
    nothing; and on an object reached by any events, a second call for the
    same reply changes nothing: no second decrement, no second flush. *)
Theorem repeated_completion_is_noop :
  (forall st reply,
      contains (replies_ st) reply = false -> ScrobbleReplyReceived' reply st = st)
  /\ (forall evs reply,
      let st := run' evs SubsonicScrobbleRequest in
      let once := ScrobbleReplyReceived' reply st in
      ScrobbleReplyReceived' reply once = once).
Proof.
  split.
  - intros st reply. apply ScrobbleReplyReceived_unknown.
  - intros evs reply st once. apply ScrobbleReplyReceived_unknown.
    apply ScrobbleReplyReceived_gone. apply Inv_run, Inv_init.
Qed.

(** C8.  On an object reached by any events, the completion of a reply in
    flight, whatever the reply holds, is FinishCheck run on a state where
    the reply has left [replies_], the counter is one lower and the queue is
    as it was; so it ends with the queue empty or the limit reached. *)
Theorem completion_always_drains (evs : list Event) (reply : QNetworkReply) :
  let st := run' evs SubsonicScrobbleRequest in
  contains (replies_ st) reply = true ->
  let st' := ScrobbleReplyReceived' reply st in
  (exists mid,
      st' = FinishCheck mid
      /\ replies_ mid = removeAll (replies_ st) reply
      /\ ~ In reply (replies_ mid)
      /\ scrobble_requests_active_ mid = scrobble_requests_active_ st - 1
      /\ scrobble_requests_queue_ mid = scrobble_requests_queue_ st)
  /\ (scrobble_requests_queue_ st' = []
      \/ scrobble_requests_active_ st' = kMaxConcurrentScrobbleRequests).
Proof.
  intros st Hc st'.
  assert (HI : Inv st) by apply Inv_run, Inv_init.
  assert (Hin : In reply (replies_ st)) by now apply contains_In.
  pose proof (Inv_positive reply st HI Hin) as Hpos.
  destruct (completion_shape reply st Hc) as (error & debug & Heq).
  split.
  - exists (reported error debug (TakeReply reply st)).
    destruct (reported_fields error debug (TakeReply reply st))
      as (Rq & Ra & Rr & _).
    rewrite Rq, Ra, Rr, TakeReply_replies, TakeReply_active, TakeReply_queue.
    repeat split; try assumption.
    + intros H. apply removeAll_In in H. tauto.
    + apply int_wrap_small. destruct HI as [Hr _ _ _ _].
      unfold kMaxConcurrentScrobbleRequests in Hr. lia.
  - destruct (completion_drains GetReplyData ExtractJsonObj QLocale_toString reply st Hc)
      as [Hq|Hge]; [now left | right].
    pose proof (inv_range _ (Inv_ScrobbleReplyReceived GetReplyData ExtractJsonObj
                               QLocale_toString reply st HI)) as Hr.
    subst st'. lia.
Qed.

(** C9.  The destructor of an object reached by any events.  For every
    reply in [replies_] the calls made are, in this order, disconnect, abort
    if the reply is running, deleteLater, and no call is made for another
    reply; no reply and no connection is left; [errors_] and the log are as
    before; and whatever replies signal finished() afterwards, nothing
    changes: no reply is read, no error recorded. *)
Theorem teardown_disconnects_before_abort (evs : list Event) :
  let st := run' evs SubsonicScrobbleRequest in
  let st' := Destructor' st in
  replies_ st' = [] /\ connected st' = []
  /\ errors_ st' = errors_ st /\ qLog st' = qLog st
  /\ (exists ops,
        journal st' = journal st ++ ops
        /\ forall reply,
            filter (about reply) ops
            = if contains (replies_ st) reply
              then OpDisconnect reply
                     :: (if isRunning reply st then [OpAbort reply] else [])
                     ++ [OpDeleteLater reply]
              else [])
  /\ (forall signals : list QNetworkReply,
        fold_left (fun s r => emit_finished' r s) signals st' = st').
Proof.
  intros st st'.
  assert (HI : Inv st) by apply Inv_run, Inv_init.
  destruct (DestructorLoop_fields (List.length (replies_ st)) st
              (inv_connected _ HI) (inv_nodup _ HI) (Nat.le_refl _))
    as (Hr & Hc & _ & _ & He & Hl & Hj).
  fold (Destructor' st) in Hr, Hc, He, Hl, Hj. fold st' in Hr, Hc, He, Hl, Hj.
  repeat split; try assumption.
  - exists (flat_map (teardown_ops st) (replies_ st)). split; [assumption|].
    intros reply. apply about_flat_map. apply (inv_nodup _ HI).
  - intros signals. induction signals as [|r signals IH]; [reflexivity|].
    simpl. now rewrite emit_finished_unconnected.
Qed.

End Lifecycle.

(** ** The theorems at the sample server *)

Lemma submit_enqueues_and_dispatch_is_fifo_witness :
  let st := sample_run "" (map submit_of sample_requests) in
  let st' := ScrobbleReplyReceived (answering "") sample_parse QStr.number 1%nat st in
  (sent st = map params_of (firstn 3 sample_requests)
   /\ scrobble_requests_queue_ st = skipn 3 sample_requests)
  /\ (sent st' = map params_of (firstn 4 sample_requests)
      /\ scrobble_requests_queue_ st' = skipn 4 sample_requests)
  /\ ledger (CreateScrobbleRequest "s3" true (at_ms 3000) st)
     = ledger st ++ [[("id", "s3"); ("submission", "true"); ("time", "3000")]].
Proof.
  destruct (submit_enqueues_and_dispatch_is_fifo (answering "") sample_parse QStr.number)
    as (Ha & Hb & Hc).
  split; [|split].
  - destruct (Hb SubsonicScrobbleRequest sample_requests) as (Hs & Hq & _);
      [reflexivity | reflexivity | reflexivity |].
    split; [exact Hs | exact Hq].
  - destruct (Hc (sample_run "" (map submit_of sample_requests)) 1%nat
                 {| song_id := "s2"; submission := true; time_ms := 2000 |}
                 [{| song_id := "s3"; submission := false; time_ms := 3000 |}])
      as (Hs & Hq & _); [reflexivity | reflexivity | reflexivity |].
    split; [exact Hs | exact Hq].
  - exact (proj1 (Ha (sample_run "" (map submit_of sample_requests))
                     "s3" true (at_ms 3000))).
Defined.

Lemma processed_completion_decrements_once_witness :
  let st := one_in_flight payload_bad_session in
  scrobble_requests_active_ (TakeReply 0%nat st) = scrobble_requests_active_ st - 1
  /\ scrobble_requests_active_
       (Destructor (answering payload_bad_session) sample_parse QStr.number st)
     = scrobble_requests_active_ st.
Proof.
  destruct (processed_completion_decrements_once
              (answering payload_bad_session) sample_parse QStr.number
              [Submit "song" true (at_ms 0)] 0%nat)
    as (Hdec & _ & _ & _ & Hdtor); [reflexivity|].
  split; [exact Hdec | exact Hdtor].
Defined.

(** A request in flight at teardown is aborted, and the counter still
    counts it afterwards, also once the aborted reply has signalled. *)
Lemma teardown_keeps_counter :
  let st := one_in_flight "" in
  let st' := Destructor (answering "") sample_parse QStr.number st in
  replies_ st = [0%nat]
  /\ scrobble_requests_active_ st = 1
  /\ journal st'
     = journal st ++ [OpDisconnect 0%nat; OpAbort 0%nat; OpDeleteLater 0%nat]
  /\ scrobble_requests_active_ st' = 1
  /\ scrobble_requests_active_
       (emit_finished (answering "") sample_parse QStr.number 0%nat st') = 1.
Proof. repeat split. Qed.

Lemma protocol_error_is_message_then_code_witness :
  errors_ (ScrobbleReplyReceived (answering payload_bad_session) sample_parse QStr.number
             0%nat (one_in_flight payload_bad_session))
  = ["bad session (70)"].
Proof.
  destruct (protocol_error_is_message_then_code
              (answering payload_bad_session) sample_parse QStr.number 0%nat
              (one_in_flight payload_bad_session)
              [("code", JDouble (70 # 1)); ("message", JString "bad session")]
              "bad session")
    as (_ & _ & H);
    [reflexivity | reflexivity | reflexivity | reflexivity | reflexivity
    | intros m Hm; discriminate Hm | exact (H eq_refl eq_refl)].
Defined.

(** The document has a numeric code, 4294967366, and a textual message; the
    text recorded shows the code as 0. *)
Lemma protocol_text_fails_on_big_code :
  let st := one_in_flight payload_big_code in
  Json.value (sample_parse payload_big_code) "error"
  = JObject [("code", JDouble (4294967366 # 1)); ("message", JString "bad session")]
  /\ errors_ (ScrobbleReplyReceived (answering payload_big_code) sample_parse QStr.number
                0%nat st)
     = ["bad session (0)"]
  /\ protocol_text "bad session" 4294967366 = "bad session (4294967366)"
  /\ "bad session (0)" <> protocol_text "bad session" 4294967366.
Proof. repeat split. discriminate. Qed.

(** A message with a place marker of its own: the second [arg] call puts
    the code there and leaves [%2] in the text. *)
Example marker_in_message_takes_the_code :
  errors_ (ScrobbleReplyReceived (answering payload_marker) sample_parse QStr.number
             0%nat (one_in_flight payload_marker))
  = ["bad 70 (%2)"].
Proof. reflexivity. Qed.

Lemma malformed_error_is_reported_witness :
  errors_ (ScrobbleReplyReceived (answering payload_oops) sample_parse QStr.number
             0%nat (one_in_flight payload_oops))
  = ["Json error is not an object."].
Proof.
  destruct (malformed_error_is_reported
              (answering payload_oops) sample_parse QStr.number 0%nat
              (one_in_flight payload_oops))
    as (H & _);
    [reflexivity | reflexivity | reflexivity | left; reflexivity | exact H].
Defined.

Example missing_message_is_reported :
  errors_ (ScrobbleReplyReceived (answering payload_no_message) sample_parse QStr.number
             0%nat (one_in_flight payload_no_message))
  = ["Json error object is missing code or message."].
Proof. reflexivity. Qed.

Lemma silent_replies_are_success_witness :
  errors_ (ScrobbleReplyReceived (answering "") sample_parse QStr.number
             0%nat (one_in_flight ""))
  = [].
Proof.
  destruct (silent_replies_are_success
              (answering "") sample_parse QStr.number 0%nat (one_in_flight ""))
    as (H & _); [reflexivity | left; reflexivity | exact H].
Defined.

Example unparsed_and_plain_replies_are_silent :
  errors_ (ScrobbleReplyReceived (answering "<html>") sample_parse QStr.number
             0%nat (one_in_flight "<html>")) = []
  /\ errors_ (ScrobbleReplyReceived (answering payload_ok) sample_parse QStr.number
                0%nat (one_in_flight payload_ok)) = [].
Proof. split; reflexivity. Qed.

Lemma completion_always_drains_witness :
  let st := sample_run payload_oops (map submit_of sample_requests) in
  let st' := ScrobbleReplyReceived (answering payload_oops) sample_parse QStr.number
               2%nat st in
  scrobble_requests_queue_ st' = []
  \/ scrobble_requests_active_ st' = kMaxConcurrentScrobbleRequests.
Proof.
  destruct (completion_always_drains
              (answering payload_oops) sample_parse QStr.number
              (map submit_of sample_requests) 2%nat)
    as (_ & H); [reflexivity | exact H].
Defined.

Lemma protocol_branch_tests_presence_only_witness :
  errors_ (ScrobbleReplyReceived (answering payload_wrong_types) sample_parse QStr.number
             0%nat (one_in_flight payload_wrong_types))
  = [" (0)"].
Proof.
  destruct (protocol_branch_tests_presence_only
              (answering payload_wrong_types) sample_parse QStr.number 0%nat
              (one_in_flight payload_wrong_types)
              [("code", JString "x"); ("message", JDouble (5 # 1))])
    as (_ & H);
    [reflexivity | reflexivity | reflexivity | reflexivity | reflexivity |].
  destruct (H eq_refl eq_refl) as (_ & _ & He). exact He.
Defined.

Lemma repeated_completion_is_noop_witness :
  let st := one_in_flight payload_oops in
  let once := ScrobbleReplyReceived (answering payload_oops) sample_parse QStr.number
                0%nat st in
  ScrobbleReplyReceived (answering payload_oops) sample_parse QStr.number 7%nat st = st
  /\ ScrobbleReplyReceived (answering payload_oops) sample_parse QStr.number 0%nat once
     = once.
Proof.
  destruct (repeated_completion_is_noop (answering payload_oops) sample_parse QStr.number)
    as (Hunknown & Htwice).
  split.
  - exact (Hunknown (one_in_flight payload_oops) 7%nat eq_refl).
  - exact (Htwice [Submit "song" true (at_ms 0)] 0%nat).
Defined.

(** * Further properties *)

(** ** Order of dispatch over whole runs *)

Lemma ledger_enqueue (request : Request) (st : State) :
  ledger (set_queue (scrobble_requests_queue_ st ++ [request]) st)
  = ledger st ++ [params_of request].
Proof.
  unfold ledger. simpl. change (flat_map _ (journal st)) with (sent st).
  now rewrite map_app, app_assoc.
Qed.

Lemma ledger_CreateScrobbleRequest (song : QString) (submit : bool)
                                   (start_time : QDateTime) (st : State) :
  ledger (CreateScrobbleRequest song submit start_time st)
  = ledger st ++ [params_of {| song_id := song; submission := submit;
                               time_ms := toMSecsSinceEpoch start_time |}].
Proof.
  unfold CreateScrobbleRequest. simpl.
  destruct (scrobble_requests_active_ st <? kMaxConcurrentScrobbleRequests).
  - rewrite ledger_FlushScrobbleRequests. apply ledger_enqueue.
  - apply ledger_enqueue.
Qed.

Lemma ledger_TakeReply (reply : QNetworkReply) (st : State) :
  ledger (TakeReply reply st) = ledger st.
Proof.
  unfold ledger, sent. simpl. rewrite !flat_map_app. simpl. now rewrite !app_nil_r.
Qed.

Lemma ledger_reported (error : QString) (debug : QVariant) (st : State) :
  ledger (reported error debug st) = ledger st.
Proof.
  unfold ledger. rewrite sent_reported.
  now rewrite (proj1 (reported_fields error debug st)).
Qed.

Lemma ledger_FinishCheck (st : State) : ledger (FinishCheck st) = ledger st.
Proof. rewrite FinishCheck_flush. apply ledger_FlushScrobbleRequests. Qed.

Lemma Inv_set_queue (q : list Request) (st : State) : Inv st -> Inv (set_queue q st).
Proof. intros [Hr Hc Hn Hf Hcn]. constructor; assumption. Qed.

Lemma Inv_set_running (l : list QNetworkReply) (st : State) :
  Inv st -> Inv (set_running l st).
Proof. intros [Hr Hc Hn Hf Hcn]. constructor; assumption. Qed.

Section RunFacts.

Variable GetReplyData : QNetworkReply -> QByteArray.
Variable ExtractJsonObj : QByteArray -> QJsonObject.
Variable QLocale_toString : Z -> QString.

Local Abbreviation ScrobbleReplyReceived' :=
  (ScrobbleReplyReceived GetReplyData ExtractJsonObj QLocale_toString).
Local Abbreviation emit_finished' :=
  (emit_finished GetReplyData ExtractJsonObj QLocale_toString).
Local Abbreviation step' := (step GetReplyData ExtractJsonObj QLocale_toString).
Local Abbreviation run' := (run GetReplyData ExtractJsonObj QLocale_toString).
Local Abbreviation shape :=
  (completion_shape GetReplyData ExtractJsonObj QLocale_toString).

Lemma ledger_ScrobbleReplyReceived (reply : QNetworkReply) (st : State) :
  ledger (ScrobbleReplyReceived' reply st) = ledger st.
Proof.
  destruct (contains (replies_ st) reply) eqn:Hc.
  - destruct (shape reply st Hc) as (error & debug & ->).
    now rewrite ledger_FinishCheck, ledger_reported, ledger_TakeReply.
  - now rewrite (ScrobbleReplyReceived_unknown GetReplyData ExtractJsonObj
                   QLocale_toString reply st Hc).
Qed.

Lemma ledger_emit_finished (reply : QNetworkReply) (st : State) :
  ledger (emit_finished' reply st) = ledger st.
Proof.
  unfold emit_finished. destruct (contains (connected st) reply);
    [apply ledger_ScrobbleReplyReceived | reflexivity].
Qed.

Lemma ledger_run (evs : list Event) :
  forall st, ledger (run' evs st) = ledger st ++ map params_of (submitted evs).
Proof.
  induction evs as [|ev evs IH]; intros st; simpl.
  - now rewrite app_nil_r.
  - rewrite IH. destruct ev as [song submit start_time | reply | reply]; simpl.
    + rewrite ledger_CreateScrobbleRequest. now rewrite <- app_assoc.
    + now rewrite ledger_ScrobbleReplyReceived.
    + now rewrite ledger_emit_finished.
Qed.

(** X1.  On an object reached by any events, the parameter lists of the
    requests sent, followed by those of the requests still queued, are the
    parameter lists of the requests submitted, in the order of submission:
    no request is lost, sent twice or overtaken. *)
Theorem requests_leave_in_submission_order (evs : list Event) :
  let st := run' evs SubsonicScrobbleRequest in
  sent st ++ map params_of (scrobble_requests_queue_ st)
  = map params_of (submitted evs).
Proof. intros st. apply (ledger_run evs SubsonicScrobbleRequest). Qed.

(** ** The counter, the replies and the queue between events *)

(** X2.  On an object reached by any events, the counter is the number of
    replies in [replies_], no reply is there twice, and the replies
    connected to the object are the replies of [replies_]. *)
Theorem counter_counts_replies_in_flight (evs : list Event) :
  let st := run' evs SubsonicScrobbleRequest in
  scrobble_requests_active_ st = Z.of_nat (List.length (replies_ st))
  /\ NoDup (replies_ st)
  /\ connected st = replies_ st.
Proof.
  intros st.
  destruct (Inv_run GetReplyData ExtractJsonObj QLocale_toString evs _ Inv_init)
    as [_ Hc Hn _ Hcn].
  repeat split; assumption.
Qed.

Lemma saturated_exit (st : State) :
  Inv st ->
  scrobble_requests_queue_ st = []
  \/ kMaxConcurrentScrobbleRequests <= scrobble_requests_active_ st ->
  saturated st.
Proof.
  intros [Hr _ _ _ _] [Hq|Hge]; [now left | right; lia].
Qed.

Lemma saturated_ScrobbleReplyReceived (reply : QNetworkReply) (st : State) :
  Inv st -> saturated st -> saturated (ScrobbleReplyReceived' reply st).
Proof.
  intros HI Hs. destruct (contains (replies_ st) reply) eqn:Hc.
  - apply saturated_exit.
    + now apply Inv_ScrobbleReplyReceived.
    + now apply completion_drains.
  - now rewrite (ScrobbleReplyReceived_unknown GetReplyData ExtractJsonObj
                   QLocale_toString reply st Hc).
Qed.

Lemma saturated_step (ev : Event) (st : State) :
  Inv st -> saturated st -> saturated (step' st ev).
Proof.
  intros HI Hs. destruct ev as [song submit start_time | reply | reply]; simpl.
  - apply saturated_exit; [now apply Inv_CreateScrobbleRequest|].
    unfold CreateScrobbleRequest. simpl.
    destruct (scrobble_requests_active_ st <? kMaxConcurrentScrobbleRequests) eqn:Hlt.
    + apply FlushScrobbleRequests_exit.
    + right. simpl. now apply Z.ltb_ge.
  - now apply saturated_ScrobbleReplyReceived.
  - unfold emit_finished. simpl.
    destruct (contains (connected st) reply); [|exact Hs].
    apply saturated_ScrobbleReplyReceived; [now apply Inv_set_running | exact Hs].
Qed.

Lemma saturated_run (evs : list Event) :
  forall st, Inv st -> saturated st -> saturated (run' evs st).
Proof.
  induction evs as [|ev evs IH]; intros st HI Hs; simpl; [assumption|].
  apply IH.
  - now apply (Inv_step GetReplyData ExtractJsonObj QLocale_toString).
  - now apply saturated_step.
Qed.

Lemma saturated_reached (evs : list Event) :
  saturated (run' evs SubsonicScrobbleRequest).
Proof. apply saturated_run; [apply Inv_init | now left]. Qed.

(** X3.  On an object reached by any events, the queue is empty or the
    counter is at the limit: no request waits while a slot is free. *)
Theorem no_request_waits_below_the_limit (evs : list Event) :
  let st := run' evs SubsonicScrobbleRequest in
  scrobble_requests_queue_ st = []
  \/ scrobble_requests_active_ st = kMaxConcurrentScrobbleRequests.
Proof. intros st. apply saturated_reached. Qed.

Lemma reached_below_limit (evs : list Event) :
  scrobble_requests_active_ (run' evs SubsonicScrobbleRequest)
    < kMaxConcurrentScrobbleRequests ->
  scrobble_requests_queue_ (run' evs SubsonicScrobbleRequest) = [].
Proof.
  intros Hlt. destruct (saturated_reached evs) as [Hq|Ha]; [assumption | lia].
Qed.

(** X4.  On an object reached by any events with the counter below the
    limit, CreateScrobbleRequest sends the request at once: it is the last
    request sent, the queue stays empty, the counter goes up by one and the
    new reply joins [replies_] at the end. *)
Theorem submission_below_the_limit_is_sent_at_once
    (evs : list Event) (song : QString) (submit : bool) (start_time : QDateTime) :
  let st := run' evs SubsonicScrobbleRequest in
  scrobble_requests_active_ st < kMaxConcurrentScrobbleRequests ->
  let st' := CreateScrobbleRequest song submit start_time st in
  sent st' = sent st ++ [params_of {| song_id := song; submission := submit;
                                     time_ms := toMSecsSinceEpoch start_time |}]
  /\ scrobble_requests_queue_ st' = []
  /\ scrobble_requests_active_ st' = scrobble_requests_active_ st + 1
  /\ replies_ st' = replies_ st ++ [next_reply st].
Proof.
  intros st Hlt st'.
  pose proof (reached_below_limit evs Hlt) as Hq. fold st in Hq.
  assert (HI : Inv st) by apply Inv_run, Inv_init.
  set (request := {| song_id := song; submission := submit;
                     time_ms := toMSecsSinceEpoch start_time |}).
  assert (Heq : st' = FlushStep request [] (set_queue [request] st)).
  { subst st'. destruct start_time as [ms].
    apply (submit_below_limit {| song_id := song; submission := submit; time_ms := ms |}
             st Hq Hlt). }
  rewrite Heq. rewrite sent_FlushStep, FlushStep_queue, FlushStep_active, FlushStep_replies.
  repeat split. simpl.
  apply int_wrap_small. destruct HI as [Hr _ _ _ _].
  unfold kMaxConcurrentScrobbleRequests in *. lia.
Qed.

(** What a completion of a reply in flight leaves, by the state of the queue. *)
Lemma completion_fields (evs : list Event) (reply : QNetworkReply) :
  let st := run' evs SubsonicScrobbleRequest in
  contains (replies_ st) reply = true ->
  let st' := ScrobbleReplyReceived' reply st in
  match scrobble_requests_queue_ st with
  | [] =>
      sent st' = sent st
      /\ scrobble_requests_queue_ st' = []
      /\ scrobble_requests_active_ st' = scrobble_requests_active_ st - 1
      /\ replies_ st' = removeAll (replies_ st) reply
      /\ next_reply st' = next_reply st
  | request :: rest =>
      sent st' = sent st ++ [params_of request]
      /\ scrobble_requests_queue_ st' = rest
      /\ scrobble_requests_active_ st' = kMaxConcurrentScrobbleRequests
      /\ replies_ st' = removeAll (replies_ st) reply ++ [next_reply st]
      /\ next_reply st' = S (next_reply st)
  end.
Proof.
  intros st Hc st'.
  assert (HI : Inv st) by apply Inv_run, Inv_init.
  pose proof (Inv_positive reply st HI (proj1 (contains_In _ _) Hc)) as Hpos.
  assert (Hsent : sent (TakeReply reply st) = sent st).
  { unfold sent. simpl. rewrite !flat_map_app. simpl. now rewrite !app_nil_r. }
  destruct (scrobble_requests_queue_ st) as [|request rest] eqn:Hq.
  - destruct (shape reply st Hc) as (error & debug & Heq).
    destruct (reported_fields error debug (TakeReply reply st))
      as (Rq & Ra & Rr & Rn & _).
    assert (Hstop : st' = reported error debug (TakeReply reply st)).
    { subst st'. rewrite Heq. apply FinishCheck_stop. left.
      now rewrite Rq, TakeReply_queue. }
    rewrite Hstop, sent_reported, Hsent, Rq, Ra, Rr, Rn.
    rewrite TakeReply_queue, TakeReply_active, TakeReply_replies, Hq.
    repeat split. apply int_wrap_small. destruct HI as [Hr _ _ _ _].
    unfold kMaxConcurrentScrobbleRequests in Hr. lia.
  - assert (Ha : scrobble_requests_active_ st = kMaxConcurrentScrobbleRequests).
    { destruct (saturated_reached evs) as [Hq'|Ha]; [|exact Ha].
      fold st in Hq'. congruence. }
    destruct (completion_sends_head GetReplyData ExtractJsonObj QLocale_toString
                reply request rest st Ha Hq Hc) as (error & debug & Heq).
    destruct (reported_fields error debug (TakeReply reply st))
      as (_ & Ra & Rr & Rn & _).
    subst st'. rewrite Heq.
    rewrite sent_FlushStep, sent_reported, Hsent, FlushStep_queue, FlushStep_active,
      FlushStep_replies, FlushStep_next_reply, Ra, Rr, Rn, TakeReply_active, Ha.
    repeat split.
Qed.

(** X5.  On an object reached by any events, the completion of a reply in
    flight, whatever the reply holds, sends the head of the queue and keeps
    the counter at the limit when a request waits, and sends nothing and
    lowers the counter by one when none waits; the completed reply leaves
    [replies_] and the reply of the request sent, if any, joins it at the
    end. *)
Theorem completion_sends_one_request_if_any_waits
    (evs : list Event) (reply : QNetworkReply) :
  let st := run' evs SubsonicScrobbleRequest in
  contains (replies_ st) reply = true ->
  let st' := ScrobbleReplyReceived' reply st in
  match scrobble_requests_queue_ st with
  | [] =>
      sent st' = sent st
      /\ scrobble_requests_queue_ st' = []
      /\ scrobble_requests_active_ st' = scrobble_requests_active_ st - 1
      /\ replies_ st' = removeAll (replies_ st) reply
  | request :: rest =>
      sent st' = sent st ++ [params_of request]
      /\ scrobble_requests_queue_ st' = rest
      /\ scrobble_requests_active_ st' = kMaxConcurrentScrobbleRequests
      /\ replies_ st' = removeAll (replies_ st) reply ++ [next_reply st]
  end.
Proof.
  intros st Hc st'. pose proof (completion_fields evs reply Hc) as H.
  cbv zeta in H. subst st st'.
  destruct (scrobble_requests_queue_ _); tauto.
Qed.

End RunFacts.

(** ** Completing whatever is in flight *)

Lemma last_In (l : list QNetworkReply) (d : QNetworkReply) : l <> [] -> In (last l d) l.
Proof.
  induction l as [|a l IH]; intros Hne; [contradiction|].
  destruct l as [|b l]; [now left|].
  right. apply IH. discriminate.
Qed.

Section CompleteAll.

Variable GetReplyData : QNetworkReply -> QByteArray.
Variable ExtractJsonObj : QByteArray -> QJsonObject.
Variable QLocale_toString : Z -> QString.
Variable pick : list QNetworkReply -> QNetworkReply.

Local Abbreviation ScrobbleReplyReceived' :=
  (ScrobbleReplyReceived GetReplyData ExtractJsonObj QLocale_toString).
Local Abbreviation run' := (run GetReplyData ExtractJsonObj QLocale_toString).
Local Abbreviation complete_all' :=
  (complete_all GetReplyData ExtractJsonObj QLocale_toString pick).

(** A processed completion lowers counter plus queue length by one. *)
Lemma completion_balance (reply : QNetworkReply) (st : State) :
  Inv st -> contains (replies_ st) reply = true ->
  scrobble_requests_active_ (ScrobbleReplyReceived' reply st)
    + Z.of_nat (List.length (scrobble_requests_queue_ (ScrobbleReplyReceived' reply st)))
  = scrobble_requests_active_ st
    + Z.of_nat (List.length (scrobble_requests_queue_ st)) - 1.
Proof.
  intros HI Hc.
  assert (Hin : In reply (replies_ st)) by now apply contains_In.
  pose proof (Inv_positive reply st HI Hin) as Hpos.
  destruct (completion_shape GetReplyData ExtractJsonObj QLocale_toString reply st Hc)
    as (error & debug & ->).
  rewrite FinishCheck_balance by now apply Inv_reported, Inv_TakeReply.
  destruct (reported_fields error debug (TakeReply reply st)) as (Rq & Ra & _).
  rewrite Rq, Ra, TakeReply_queue, TakeReply_active, int_wrap_small; [lia|].
  destruct HI as [Hr _ _ _ _]. unfold kMaxConcurrentScrobbleRequests in Hr. lia.
Qed.

Hypothesis pick_in_flight : forall l, l <> [] -> In (pick l) l.

Lemma complete_all_ends (fuel : nat) :
  forall st,
    Inv st -> saturated st ->
    scrobble_requests_active_ st
      + Z.of_nat (List.length (scrobble_requests_queue_ st)) <= Z.of_nat fuel ->
    let st' := complete_all' fuel st in
    Inv st' /\ saturated st' /\ replies_ st' = [] /\ ledger st' = ledger st.
Proof.
  induction fuel as [|fuel IH]; intros st HI Hs Hfuel; simpl.
  - split; [assumption | split; [assumption | split; [|reflexivity]]].
    destruct HI as [Hr Hc _ _ _].
    destruct (replies_ st); [reflexivity | simpl in Hc; lia].
  - destruct (replies_ st) as [|r0 l] eqn:Hr;
      [split; [assumption | split; [assumption | split; [assumption | reflexivity]]]|].
    assert (Hc : contains (replies_ st) (pick (r0 :: l)) = true).
    { apply contains_In. rewrite Hr. apply pick_in_flight. discriminate. }
    pose proof (completion_balance _ st HI Hc) as Hb.
    destruct (IH (ScrobbleReplyReceived' (pick (r0 :: l)) st)) as (I1 & I2 & I3 & I4).
    + now apply Inv_ScrobbleReplyReceived.
    + now apply saturated_ScrobbleReplyReceived.
    + lia.
    + split; [assumption | split; [assumption | split; [assumption|]]].
      rewrite I4. apply ledger_ScrobbleReplyReceived.
Qed.

(** X6.  On an object reached by any events, let the replies in flight
    complete one after the other, in any order and whatever they hold, until
    none is in flight.  Then every request submitted has been sent, in the
    order of submission, the queue is empty and the counter is 0; as many
    completions as there are requests in flight and waiting are enough. *)
Theorem completions_send_every_request (evs : list Event) :
  let st := run' evs SubsonicScrobbleRequest in
  let fuel := (List.length (replies_ st)
               + List.length (scrobble_requests_queue_ st))%nat in
  let st' := complete_all' fuel st in
  replies_ st' = []
  /\ scrobble_requests_queue_ st' = []
  /\ scrobble_requests_active_ st' = 0
  /\ sent st' = map params_of (submitted evs).
Proof.
  intros st fuel st'.
  assert (HI : Inv st) by apply Inv_run, Inv_init.
  assert (Hs : saturated st) by apply saturated_reached.
  destruct (complete_all_ends fuel st HI Hs) as (I1 & I2 & I3 & I4).
  { subst fuel. rewrite (inv_count _ HI). lia. }
  fold st' in I1, I2, I3, I4.
  assert (Ha : scrobble_requests_active_ st' = 0)
    by (rewrite (inv_count _ I1), I3; reflexivity).
  assert (Hq : scrobble_requests_queue_ st' = []).
  { destruct I2 as [Hq|H3]; [assumption|].
    rewrite Ha in H3. discriminate. }
  repeat split; try assumption.
  unfold ledger in I4. rewrite Hq in I4. simpl in I4. rewrite app_nil_r in I4.
  rewrite I4. apply (ledger_run GetReplyData ExtractJsonObj QLocale_toString
                       evs SubsonicScrobbleRequest).
Qed.

End CompleteAll.

(** ** The error list *)

Lemma error_lines_app (l1 l2 : list LogLine) :
  error_lines (l1 ++ l2) = error_lines l1 ++ error_lines l2.
Proof. apply flat_map_app. Qed.

Lemma errors_CreateScrobbleRequest (song : QString) (submit : bool)
                                   (start_time : QDateTime) (st : State) :
  errors_ (CreateScrobbleRequest song submit start_time st) = errors_ st
  /\ qLog (CreateScrobbleRequest song submit start_time st) = qLog st.
Proof.
  unfold CreateScrobbleRequest. simpl.
  destruct (scrobble_requests_active_ st <? kMaxConcurrentScrobbleRequests).
  - apply (errors_FlushScrobbleRequests
             (set_queue (scrobble_requests_queue_ st ++ [_]) st)).
  - split; reflexivity.
Qed.

Lemma qLog_reported (error : QString) (debug : QVariant) (st : State) :
  qLog (reported error debug st)
  = qLog st ++ (if QStr.isEmpty error then [] else [LogError error])
            ++ match debug with Some d => [LogDebug d] | None => [] end.
Proof.
  unfold reported. destruct (QStr.isEmpty error); destruct debug; simpl;
    rewrite <- ?app_assoc, ?app_nil_r; reflexivity.
Qed.

Section ErrorList.

Variable GetReplyData : QNetworkReply -> QByteArray.
Variable ExtractJsonObj : QByteArray -> QJsonObject.
Variable QLocale_toString : Z -> QString.

Local Abbreviation ScrobbleReplyReceived' :=
  (ScrobbleReplyReceived GetReplyData ExtractJsonObj QLocale_toString).
Local Abbreviation emit_finished' :=
  (emit_finished GetReplyData ExtractJsonObj QLocale_toString).
Local Abbreviation step' := (step GetReplyData ExtractJsonObj QLocale_toString).
Local Abbreviation run' := (run GetReplyData ExtractJsonObj QLocale_toString).

(** What one call of the reply handler adds to [errors_] and to the log. *)
Lemma ScrobbleReplyReceived_records (reply : QNetworkReply) (st : State) :
  exists error debug,
    errors_ (ScrobbleReplyReceived' reply st)
    = errors_ st ++ (if QStr.isEmpty error then [] else [error])
    /\ qLog (ScrobbleReplyReceived' reply st)
       = qLog st ++ (if QStr.isEmpty error then [] else [LogError error])
                 ++ match debug with Some d => [LogDebug d] | None => [] end.
Proof.
  destruct (contains (replies_ st) reply) eqn:Hc.
  - destruct (completion_shape GetReplyData ExtractJsonObj QLocale_toString reply st Hc)
      as (error & debug & ->).
    exists error, debug.
    destruct (errors_FinishCheck (reported error debug (TakeReply reply st))) as [-> ->].
    now rewrite errors_reported, qLog_reported.
  - exists "", None.
    rewrite (ScrobbleReplyReceived_unknown GetReplyData ExtractJsonObj
               QLocale_toString reply st Hc).
    simpl. now rewrite !app_nil_r.
Qed.

Lemma step_records (ev : Event) (st : State) :
  exists more,
    errors_ (step' st ev) = errors_ st ++ more
    /\ (List.length more + List.length (submitted [ev]) <= 1)%nat
    /\ (errors_ st = error_lines (qLog st) ->
        errors_ (step' st ev) = error_lines (qLog (step' st ev))).
Proof.
  assert (Hsrr : forall reply s,
             exists more,
               errors_ (ScrobbleReplyReceived' reply s) = errors_ s ++ more
               /\ (List.length more <= 1)%nat
               /\ (errors_ s = error_lines (qLog s) ->
                   errors_ (ScrobbleReplyReceived' reply s)
                   = error_lines (qLog (ScrobbleReplyReceived' reply s)))).
  { intros reply s.
    destruct (ScrobbleReplyReceived_records reply s) as (error & debug & He & Hl).
    exists (if QStr.isEmpty error then [] else [error]).
    split; [exact He|]. split; [destruct (QStr.isEmpty error); simpl; lia|].
    intros HM. rewrite He, Hl, !error_lines_app, <- HM.
    destruct (QStr.isEmpty error); destruct debug; simpl; now rewrite ?app_nil_r. }
  destruct ev as [song submit start_time | reply | reply]; simpl.
  - exists []. destruct (errors_CreateScrobbleRequest song submit start_time st) as [He Hl].
    rewrite He, Hl, app_nil_r. repeat split; [simpl; lia | tauto].
  - destruct (Hsrr reply st) as (more & He & Hn & HM).
    exists more. repeat split; [assumption | simpl; lia | assumption].
  - unfold emit_finished. simpl. destruct (contains (connected st) reply).
    + destruct (Hsrr reply (set_running (removeAll (running st) reply) st))
        as (more & He & Hn & HM).
      exists more. repeat split; [assumption | simpl; lia | assumption].
    + exists []. rewrite app_nil_r. repeat split; [simpl; lia | tauto].
Qed.

Lemma submitted_app (evs1 evs2 : list Event) :
  submitted (evs1 ++ evs2) = submitted evs1 ++ submitted evs2.
Proof.
  induction evs1 as [|[song submit start_time | reply | reply] evs1 IH]; simpl;
    [reflexivity | now rewrite IH | assumption | assumption].
Qed.

Lemma run_records (evs : list Event) :
  forall st,
    exists more,
      errors_ (run' evs st) = errors_ st ++ more
      /\ (List.length more + List.length (submitted evs) <= List.length evs)%nat
      /\ (errors_ st = error_lines (qLog st) ->
          errors_ (run' evs st) = error_lines (qLog (run' evs st))).
Proof.
  induction evs as [|ev evs IH]; intros st.
  - exists []. simpl. rewrite app_nil_r. repeat split; [lia | tauto].
  - destruct (step_records ev st) as (m1 & He1 & Hn1 & HM1).
    destruct (IH (step' st ev)) as (m2 & He2 & Hn2 & HM2).
    exists (m1 ++ m2).
    change (run' (ev :: evs) st) with (run' evs (step' st ev)). split; [|split].
    + rewrite He2, He1. now rewrite app_assoc.
    + change (ev :: evs) with ([ev] ++ evs). rewrite submitted_app, !length_app.
      simpl List.length in *. lia.
    + intros HM. apply HM2, HM1, HM.
Qed.

(** X7.  [errors_] only grows: what a run has recorded stays, in place, at
    the front of what any longer run records, and the events that follow
    add at most one error for each event that is not a submission. *)
Theorem errors_are_only_appended (evs1 evs2 : list Event) :
  exists more,
    errors_ (run' (evs1 ++ evs2) SubsonicScrobbleRequest)
    = errors_ (run' evs1 SubsonicScrobbleRequest) ++ more
    /\ (List.length more + List.length (submitted evs2) <= List.length evs2)%nat.
Proof.
  unfold run. rewrite fold_left_app.
  destruct (run_records evs2 (run' evs1 SubsonicScrobbleRequest)) as (more & He & Hn & _).
  exists more. split; assumption.
Qed.

(** X8.  On an object reached by any events, [errors_] is the list of the
    texts of the error lines of the log, in the same order: each error
    recorded is logged once and nothing else is logged as an error. *)
Theorem errors_are_the_logged_error_lines (evs : list Event) :
  let st := run' evs SubsonicScrobbleRequest in
  errors_ st = error_lines (qLog st).
Proof.
  intros st. destruct (run_records evs SubsonicScrobbleRequest) as (more & _ & _ & HM).
  apply HM. reflexivity.
Qed.

(** X9.  One call of the reply handler, on any state and for any reply:
    [errors_] grows by exactly one text when the reply is in [replies_] and
    its bytes give a document with an [error] key, and stays as it is
    otherwise. *)
Theorem one_error_for_each_error_document (reply : QNetworkReply) (st : State) :
  let st' := ScrobbleReplyReceived' reply st in
  exists more,
    errors_ st' = errors_ st ++ more
    /\ List.length more
       = if contains (replies_ st) reply
            && has_error (GetReplyData reply) (ExtractJsonObj (GetReplyData reply))
         then 1%nat else 0%nat.
Proof.
  intros st'. subst st'.
  destruct (contains (replies_ st) reply) eqn:Hc; simpl andb.
  2: { exists []. rewrite (ScrobbleReplyReceived_unknown GetReplyData ExtractJsonObj
                             QLocale_toString reply st Hc).
       rewrite app_nil_r. split; reflexivity. }
  pose proof (completion_errors GetReplyData ExtractJsonObj QLocale_toString reply st)
    as Hce.
  unfold has_error.
  destruct (QStr.isEmpty (GetReplyData reply)) eqn:Hd; simpl.
  { exists []. split; [|reflexivity]. rewrite (Hce "" None Hc); [reflexivity|].
    apply ReadReply_silent. now left. }
  destruct (Json.isEmpty (ExtractJsonObj (GetReplyData reply))) eqn:He; simpl.
  { exists []. split; [|reflexivity]. rewrite (Hce "" None Hc); [reflexivity|].
    apply ReadReply_silent. right. now left. }
  destruct (Json.contains (ExtractJsonObj (GetReplyData reply)) "error") eqn:Hk.
  2: { exists []. split; [|reflexivity]. rewrite (Hce "" None Hc); [reflexivity|].
       apply ReadReply_silent. right. now right. }
  destruct (Json.isObject (Json.value (ExtractJsonObj (GetReplyData reply)) "error"))
    eqn:Ho.
  2: { eexists. split;
         [eapply Hce; [exact Hc | now apply ReadReply_not_object] | reflexivity]. }
  destruct (Json.contains
              (Json.toObject (Json.value (ExtractJsonObj (GetReplyData reply)) "error"))
              "code") eqn:Hcode.
  2: { eexists. split;
         [eapply Hce; [exact Hc | apply ReadReply_missing; auto] | reflexivity]. }
  destruct (Json.contains
              (Json.toObject (Json.value (ExtractJsonObj (GetReplyData reply)) "error"))
              "message") eqn:Hmsg.
  2: { eexists. split;
         [eapply Hce; [exact Hc | apply ReadReply_missing; auto] | reflexivity]. }
  eexists. split; [eapply Hce; [exact Hc | now apply ReadReply_protocol]|].
  now rewrite (ends_with_nonempty _ _ (protocol_branch_text QLocale_toString _ _)).
Qed.

End ErrorList.

(** ** What the replies hold does not steer the queue *)

Lemma without_errors_FlushLoop (fuel : nat) :
  forall st, without_errors (FlushLoop fuel st) = FlushLoop fuel (without_errors st).
Proof.
  induction fuel as [|fuel IH]; intros st; [reflexivity|].
  simpl. destruct (scrobble_requests_queue_ st) as [|request rest]; [reflexivity|].
  destruct (scrobble_requests_active_ st <? kMaxConcurrentScrobbleRequests);
    [|reflexivity].
  now rewrite IH.
Qed.

Lemma without_errors_FinishCheck (st : State) :
  without_errors (FinishCheck st) = FinishCheck (without_errors st).
Proof.
  rewrite !FinishCheck_flush. unfold FlushScrobbleRequests.
  now rewrite without_errors_FlushLoop.
Qed.

Lemma without_errors_reported (error : QString) (debug : QVariant) (st : State) :
  without_errors (reported error debug st) = without_errors st.
Proof.
  unfold reported. destruct (negb (QStr.isEmpty error)); destruct debug; reflexivity.
Qed.

Lemma without_errors_CreateScrobbleRequest (song : QString) (submit : bool)
                                           (start_time : QDateTime) (st : State) :
  without_errors (CreateScrobbleRequest song submit start_time st)
  = CreateScrobbleRequest song submit start_time (without_errors st).
Proof.
  unfold CreateScrobbleRequest. simpl.
  destruct (scrobble_requests_active_ st <? kMaxConcurrentScrobbleRequests);
    [|reflexivity].
  unfold FlushScrobbleRequests. now rewrite without_errors_FlushLoop.
Qed.

Lemma without_errors_ScrobbleReplyReceived
    (GetReplyData : QNetworkReply -> QByteArray)
    (ExtractJsonObj : QByteArray -> QJsonObject) (QLocale_toString : Z -> QString)
    (reply : QNetworkReply) (st : State) :
  without_errors (ScrobbleReplyReceived GetReplyData ExtractJsonObj QLocale_toString
                    reply st)
  = if contains (replies_ st) reply
    then FinishCheck (TakeReply reply (without_errors st))
    else without_errors st.
Proof.
  destruct (contains (replies_ st) reply) eqn:Hc.
  - destruct (completion_shape GetReplyData ExtractJsonObj QLocale_toString reply st Hc)
      as (error & debug & ->).
    now rewrite without_errors_FinishCheck, without_errors_reported.
  - now rewrite (ScrobbleReplyReceived_unknown GetReplyData ExtractJsonObj
                   QLocale_toString reply st Hc).
Qed.

Section TwoServers.

Variables GetReplyData1 GetReplyData2 : QNetworkReply -> QByteArray.
Variables ExtractJsonObj1 ExtractJsonObj2 : QByteArray -> QJsonObject.
Variables QLocale_toString1 QLocale_toString2 : Z -> QString.

Local Abbreviation step1 := (step GetReplyData1 ExtractJsonObj1 QLocale_toString1).
Local Abbreviation step2 := (step GetReplyData2 ExtractJsonObj2 QLocale_toString2).
Local Abbreviation run1 := (run GetReplyData1 ExtractJsonObj1 QLocale_toString1).
Local Abbreviation run2 := (run GetReplyData2 ExtractJsonObj2 QLocale_toString2).

Lemma without_errors_step (ev : Event) (st1 st2 : State) :
  without_errors st1 = without_errors st2 ->
  without_errors (step1 st1 ev) = without_errors (step2 st2 ev).
Proof.
  intros H.
  assert (Hr : replies_ st1 = replies_ st2) by exact (f_equal replies_ H).
  assert (Hc : connected st1 = connected st2) by exact (f_equal connected H).
  assert (Hrun : running st1 = running st2) by exact (f_equal running H).
  destruct ev as [song submit start_time | reply | reply]; simpl.
  - now rewrite !without_errors_CreateScrobbleRequest, H.
  - now rewrite !without_errors_ScrobbleReplyReceived, Hr, H.
  - unfold emit_finished. simpl. rewrite Hc, Hrun.
    assert (Hs : without_errors (set_running (removeAll (running st2) reply) st1)
                 = without_errors (set_running (removeAll (running st2) reply) st2))
      by exact (f_equal (set_running (removeAll (running st2) reply)) H).
    destruct (contains (connected st2) reply); [|exact Hs].
    rewrite !without_errors_ScrobbleReplyReceived. simpl replies_. now rewrite Hr, Hs.
Qed.

Lemma without_errors_run (evs : list Event) :
  forall st1 st2,
    without_errors st1 = without_errors st2 ->
    without_errors (run1 evs st1) = without_errors (run2 evs st2).
Proof.
  induction evs as [|ev evs IH]; intros st1 st2 H; simpl; [assumption|].
  apply IH. now apply without_errors_step.
Qed.

(** X10.  Two new objects meet the same events, but their replies hold
    different bytes, parsed by different parsers.  Then they agree on
    everything except [errors_] and the log: the same queue, the same
    counter, the same replies in flight and the same calls to the network
    layer, in the same order.  What a reply holds never changes which
    request is sent, or when. *)
Theorem queue_does_not_depend_on_what_replies_hold (evs : list Event) :
  let st1 := run1 evs SubsonicScrobbleRequest in
  let st2 := run2 evs SubsonicScrobbleRequest in
  without_errors st1 = without_errors st2
  /\ scrobble_requests_queue_ st1 = scrobble_requests_queue_ st2
  /\ scrobble_requests_active_ st1 = scrobble_requests_active_ st2
  /\ replies_ st1 = replies_ st2
  /\ journal st1 = journal st2.
Proof.
  intros st1 st2.
  assert (H : without_errors st1 = without_errors st2)
    by (apply without_errors_run; reflexivity).
  split; [exact H|]. split; [exact (f_equal scrobble_requests_queue_ H)|].
  split; [exact (f_equal scrobble_requests_active_ H)|].
  split; [exact (f_equal replies_ H) | exact (f_equal journal H)].
Qed.

End TwoServers.

(** ** The destructor in any state *)

Lemma contains_removeAll_self (l : list QNetworkReply) (reply : QNetworkReply) :
  contains (removeAll l reply) reply = false.
Proof.
  apply contains_not_In. intros Hin. apply removeAll_In in Hin. tauto.
Qed.

Section DestructorAnywhere.

Variable GetReplyData : QNetworkReply -> QByteArray.
Variable ExtractJsonObj : QByteArray -> QJsonObject.
Variable QLocale_toString : Z -> QString.

Local Abbreviation DestructorStep' :=
  (DestructorStep GetReplyData ExtractJsonObj QLocale_toString).
Local Abbreviation DestructorLoop' :=
  (DestructorLoop GetReplyData ExtractJsonObj QLocale_toString).
Local Abbreviation Destructor' := (Destructor GetReplyData ExtractJsonObj QLocale_toString).

(** The reply is disconnected before it is aborted, so the signal of the
    abort finds no connection, whatever the state. *)
Lemma DestructorStep_anywhere (reply : QNetworkReply) (rest : list QNetworkReply)
                              (st : State) :
  let st' := DestructorStep' reply rest st in
  replies_ st' = rest
  /\ scrobble_requests_queue_ st' = scrobble_requests_queue_ st
  /\ scrobble_requests_active_ st' = scrobble_requests_active_ st
  /\ errors_ st' = errors_ st /\ qLog st' = qLog st
  /\ next_reply st' = next_reply st
  /\ sent st' = sent st.
Proof.
  unfold DestructorStep, isRunning, abort, emit_finished, disconnect, sent. simpl.
  destruct (contains (running st) reply); simpl;
    rewrite ?contains_removeAll_self; simpl;
    rewrite !flat_map_app; simpl; rewrite ?app_nil_r; repeat split.
Qed.

Lemma DestructorLoop_anywhere (fuel : nat) :
  forall st,
    (List.length (replies_ st) <= fuel)%nat ->
    let st' := DestructorLoop' fuel st in
    replies_ st' = []
    /\ scrobble_requests_queue_ st' = scrobble_requests_queue_ st
    /\ scrobble_requests_active_ st' = scrobble_requests_active_ st
    /\ errors_ st' = errors_ st /\ qLog st' = qLog st
    /\ next_reply st' = next_reply st
    /\ sent st' = sent st.
Proof.
  induction fuel as [|fuel IH]; intros st Hlen; simpl.
  - destruct (replies_ st) eqn:Hr; [repeat split; assumption | simpl in Hlen; lia].
  - destruct (replies_ st) as [|reply rest] eqn:Hr; [repeat split; assumption|].
    destruct (DestructorStep_anywhere reply rest st)
      as (Sr & Sq & Sa & Se & Sl & Sn & Ss).
    destruct (IH (DestructorStep' reply rest st)) as (Ir & Iq & Ia & Ie & Il & In' & Is).
    { rewrite Sr. simpl in Hlen. lia. }
    repeat split; congruence.
Qed.

(** X11.  The destructor, run in any state of the object: it ends with no
    reply left in [replies_]; it sends none of the requests still queued and
    leaves the queue, the counter, [errors_] and the log as they were. *)
Theorem destructor_releases_replies_and_sends_nothing (st : State) :
  let st' := Destructor' st in
  replies_ st' = []
  /\ sent st' = sent st
  /\ scrobble_requests_queue_ st' = scrobble_requests_queue_ st
  /\ scrobble_requests_active_ st' = scrobble_requests_active_ st
  /\ errors_ st' = errors_ st
  /\ qLog st' = qLog st.
Proof.
  intros st'.
  destruct (DestructorLoop_anywhere (List.length (replies_ st)) st (Nat.le_refl _))
    as (Hr & Hq & Ha & He & Hl & _ & Hs).
  repeat split; assumption.
Qed.

End DestructorAnywhere.

(** ** The guards around the flush *)

(** X12.  The tests before the calls of FlushScrobbleRequests repeat the
    test of its loop: in any state FinishCheck does what
    FlushScrobbleRequests does, CreateScrobbleRequest is the enqueue
    followed by FlushScrobbleRequests, and a flush right after a flush, or
    after FinishCheck or Error, changes nothing. *)
Theorem flush_guards_are_redundant (st : State) :
  FinishCheck st = FlushScrobbleRequests st
  /\ (forall song submit start_time,
        CreateScrobbleRequest song submit start_time st
        = FlushScrobbleRequests
            (set_queue (scrobble_requests_queue_ st
                        ++ [{| song_id := song; submission := submit;
                               time_ms := toMSecsSinceEpoch start_time |}]) st))
  /\ FlushScrobbleRequests (FlushScrobbleRequests st) = FlushScrobbleRequests st
  /\ (forall error debug,
        FlushScrobbleRequests (Error error debug st) = Error error debug st).
Proof.
  split; [apply FinishCheck_flush|]. split; [|split].
  - intros song submit start_time. unfold CreateScrobbleRequest. simpl.
    destruct (scrobble_requests_active_ st <? kMaxConcurrentScrobbleRequests) eqn:Hlt;
      [reflexivity|].
    symmetry. apply FlushScrobbleRequests_stop. right. simpl. now apply Z.ltb_ge.
  - apply FlushScrobbleRequests_stop. apply FlushScrobbleRequests_exit.
  - intros error debug. rewrite Error_reported.
    apply FlushScrobbleRequests_stop. apply FinishCheck_exit.
Qed.

(** ** The parameters of a request *)

Lemma number_inj (a b : Z) : QStr.number a = QStr.number b -> a = b.
Proof.
  unfold QStr.number. intros H. apply DecimalZ.to_int_inj.
  assert (Hnil : forall z, Z.to_int z <> Decimal.Pos Decimal.Nil
                           /\ Z.to_int z <> Decimal.Neg Decimal.Nil).
  { intros [|p|p]; simpl; split; try discriminate;
      intros [= Hp]; exact (DecimalPos.Unsigned.to_uint_nonnil p Hp). }
  destruct (Hnil a) as [Ha1 Ha2]. destruct (Hnil b) as [Hb1 Hb2].
  pose proof (NilZero.isi (Z.to_int a) Ha1 Ha2) as Ia.
  pose proof (NilZero.isi (Z.to_int b) Hb1 Hb2) as Ib.
  rewrite H in Ia. rewrite Ia in Ib. now injection Ib.
Qed.

(** X13.  The parameters sent for a request determine the request: two
    requests with the same three parameters have the same song, the same
    submission flag and the same time. *)
Theorem parameters_determine_the_request (r1 r2 : Request) :
  params_of r1 = params_of r2 -> r1 = r2.
Proof.
  destruct r1 as [s1 b1 t1], r2 as [s2 b2 t2]. unfold params_of. simpl.
  intros [= Hs Hb Ht]. subst s2. apply number_inj in Ht. subst t2.
  destruct b1, b2; try discriminate; reflexivity.
Qed.

(** ** The calls made about each reply *)

Lemma contains_app_other (l : list QNetworkReply) (n reply : QNetworkReply) :
  reply <> n -> contains (l ++ [n]) reply = contains l reply.
Proof.
  intros Hne. unfold contains. rewrite existsb_app. simpl.
  destruct (Nat.eqb_spec reply n); [contradiction|]. now rewrite !orb_false_r.
Qed.

Lemma lifecycle_same (st st' : State) (reply : QNetworkReply) :
  journal st' = journal st -> replies_ st' = replies_ st ->
  next_reply st' = next_reply st ->
  lifecycle st reply -> lifecycle st' reply.
Proof.
  unfold lifecycle, calls_about. now intros -> -> ->.
Qed.

Lemma lifecycle_FlushStep (request : Request) (rest : list Request) (st : State) :
  (forall reply, lifecycle st reply) ->
  forall reply, lifecycle (FlushStep request rest st) reply.
Proof.
  intros H reply. specialize (H reply). unfold lifecycle, calls_about in *.
  rewrite FlushStep_journal, FlushStep_next_reply, FlushStep_replies, filter_app.
  simpl filter. destruct (Nat.eqb_spec reply (next_reply st)) as [->|Hne].
  - rewrite Nat.leb_refl in H. rewrite H.
    replace (S (next_reply st) <=? next_reply st)%nat with false
      by (symmetry; apply Nat.leb_gt; lia).
    exists (params_of request).
    replace (contains (replies_ st ++ [next_reply st]) (next_reply st)) with true.
    + reflexivity.
    + symmetry. apply contains_In, in_or_app. right. now left.
  - rewrite app_nil_r, contains_app_other by assumption.
    destruct (next_reply st <=? reply)%nat eqn:Hle.
    + apply Nat.leb_le in Hle.
      replace (S (next_reply st) <=? reply)%nat with true
        by (symmetry; apply Nat.leb_le; lia).
      exact H.
    + apply Nat.leb_gt in Hle.
      replace (S (next_reply st) <=? reply)%nat with false
        by (symmetry; apply Nat.leb_gt; lia).
      exact H.
Qed.

Lemma lifecycle_TakeReply (r : QNetworkReply) (st : State) :
  Inv st -> In r (replies_ st) ->
  (forall reply, lifecycle st reply) ->
  forall reply, lifecycle (TakeReply r st) reply.
Proof.
  intros HI Hin H reply. specialize (H reply). unfold lifecycle, calls_about in *.
  assert (Hj : journal (TakeReply r st)
               = journal st ++ [OpDisconnect r; OpDeleteLater r])
    by (simpl; now rewrite <- app_assoc).
  rewrite Hj, TakeReply_replies, filter_app. simpl next_reply. simpl filter.
  destruct (Nat.eqb_spec reply r) as [->|Hne].
  - pose proof (inv_fresh _ HI) as Hf. rewrite Forall_forall in Hf.
    specialize (Hf _ Hin).
    replace (next_reply st <=? r)%nat with false in *
      by (symmetry; apply Nat.leb_gt; lia).
    destruct H as (params & H). exists params.
    rewrite H, contains_removeAll_self.
    replace (contains (replies_ st) r) with true
      by (symmetry; now apply contains_In).
    reflexivity.
  - rewrite app_nil_r, contains_removeAll_other by assumption. exact H.
Qed.

Section Calls.

Variable GetReplyData : QNetworkReply -> QByteArray.
Variable ExtractJsonObj : QByteArray -> QJsonObject.
Variable QLocale_toString : Z -> QString.

Local Abbreviation ScrobbleReplyReceived' :=
  (ScrobbleReplyReceived GetReplyData ExtractJsonObj QLocale_toString).
Local Abbreviation step' := (step GetReplyData ExtractJsonObj QLocale_toString).
Local Abbreviation run' := (run GetReplyData ExtractJsonObj QLocale_toString).
Local Abbreviation Destructor' := (Destructor GetReplyData ExtractJsonObj QLocale_toString).

Lemma lifecycle_FinishCheck (st : State) :
  (forall reply, lifecycle st reply) -> forall reply, lifecycle (FinishCheck st) reply.
Proof.
  apply (FinishCheck_keeps (fun s => forall reply, lifecycle s reply)).
  intros s request rest _ _ H. now apply lifecycle_FlushStep.
Qed.

Lemma lifecycle_ScrobbleReplyReceived (r : QNetworkReply) (st : State) :
  Inv st -> (forall reply, lifecycle st reply) ->
  forall reply, lifecycle (ScrobbleReplyReceived' r st) reply.
Proof.
  intros HI H. destruct (contains (replies_ st) r) eqn:Hc.
  - destruct (completion_shape GetReplyData ExtractJsonObj QLocale_toString r st Hc)
      as (error & debug & ->).
    apply lifecycle_FinishCheck. intros reply.
    destruct (reported_fields error debug (TakeReply r st))
      as (_ & _ & Rr & Rn & _ & _ & Rj).
    apply (lifecycle_same (TakeReply r st)); try assumption.
    apply lifecycle_TakeReply; try assumption. now apply contains_In.
  - now rewrite (ScrobbleReplyReceived_unknown GetReplyData ExtractJsonObj
                   QLocale_toString r st Hc).
Qed.

Lemma lifecycle_step (ev : Event) (st : State) :
  Inv st -> (forall reply, lifecycle st reply) ->
  forall reply, lifecycle (step' st ev) reply.
Proof.
  intros HI H. destruct ev as [song submit start_time | r | r]; simpl.
  - unfold CreateScrobbleRequest. simpl.
    destruct (scrobble_requests_active_ st <? kMaxConcurrentScrobbleRequests);
      [|exact H].
    rewrite <- FinishCheck_flush. apply lifecycle_FinishCheck. exact H.
  - now apply lifecycle_ScrobbleReplyReceived.
  - unfold emit_finished. simpl. destruct (contains (connected st) r); [|exact H].
    apply lifecycle_ScrobbleReplyReceived; [now apply Inv_set_running | exact H].
Qed.

Lemma lifecycle_run (evs : list Event) :
  forall st, Inv st -> (forall reply, lifecycle st reply) ->
  forall reply, lifecycle (run' evs st) reply.
Proof.
  induction evs as [|ev evs IH]; intros st HI H; simpl; [assumption|].
  apply IH.
  - now apply (Inv_step GetReplyData ExtractJsonObj QLocale_toString).
  - now apply lifecycle_step.
Qed.

Lemma lifecycle_reached (evs : list Event) (reply : QNetworkReply) :
  lifecycle (run' evs SubsonicScrobbleRequest) reply.
Proof. apply lifecycle_run; [apply Inv_init | reflexivity]. Qed.

(** X14.  On an object reached by any events, the calls made to the network
    layer about any one reply are: none, for a reply not yet created; the
    scrobble request and the connect, for a reply in [replies_]; and these
    two followed by one disconnect and one deleteLater, for a reply that
    was created and is no longer in [replies_].  No live reply is aborted,
    and none is released twice. *)
Theorem each_reply_is_connected_and_released_once
    (evs : list Event) (reply : QNetworkReply) :
  let st := run' evs SubsonicScrobbleRequest in
  let calls := filter (about reply) (journal st) in
  if (next_reply st <=? reply)%nat then calls = []
  else exists params,
      calls = [OpGet reply "scrobble" params; OpConnect reply]
              ++ (if contains (replies_ st) reply then []
                  else [OpDisconnect reply; OpDeleteLater reply]).
Proof. exact (lifecycle_reached evs reply). Qed.

(** X15.  After the destructor of an object reached by any events, every
    reply ever created has been requested, connected, disconnected and
    released by deleteLater, once each and in this order, with an abort
    before the release exactly for the replies that were in [replies_] and
    running at teardown; no call was made about any other reply. *)
Theorem teardown_leaves_every_reply_released_once
    (evs : list Event) (reply : QNetworkReply) :
  let st := run' evs SubsonicScrobbleRequest in
  let calls := filter (about reply) (journal (Destructor' st)) in
  if (next_reply st <=? reply)%nat then calls = []
  else exists params,
      calls = [OpGet reply "scrobble" params; OpConnect reply; OpDisconnect reply]
              ++ (if contains (replies_ st) reply && isRunning reply st
                  then [OpAbort reply] else [])
              ++ [OpDeleteLater reply].
Proof.
  intros st calls. subst calls.
  assert (HI : Inv st) by apply Inv_run, Inv_init.
  pose proof (lifecycle_reached evs reply) as HL. fold st in HL.
  unfold lifecycle, calls_about in HL.
  destruct (DestructorLoop_fields GetReplyData ExtractJsonObj QLocale_toString
              (List.length (replies_ st)) st
              (inv_connected _ HI) (inv_nodup _ HI) (Nat.le_refl _))
    as (_ & _ & _ & _ & _ & _ & Hj).
  fold (Destructor' st) in Hj. rewrite Hj, filter_app.
  rewrite about_flat_map by apply (inv_nodup _ HI).
  destruct (next_reply st <=? reply)%nat eqn:Hle.
  - rewrite HL. apply Nat.leb_le in Hle.
    replace (contains (replies_ st) reply) with false; [reflexivity|].
    symmetry. apply contains_not_In. intros Hin.
    pose proof (inv_fresh _ HI) as Hf. rewrite Forall_forall in Hf.
    specialize (Hf _ Hin). lia.
  - destruct HL as (params & ->). exists params.
    unfold teardown_ops. destruct (contains (replies_ st) reply); simpl;
      [destruct (isRunning reply st)|]; reflexivity.
Qed.

End Calls.

(** ** Completions in either order *)

Lemma removeAll_comm (l : list QNetworkReply) (a b : QNetworkReply) :
  removeAll (removeAll l a) b = removeAll (removeAll l b) a.
Proof.
  induction l as [|x l IH]; [reflexivity|]. simpl.
  destruct (Nat.eqb a x) eqn:Ha; destruct (Nat.eqb b x) eqn:Hb; simpl;
    rewrite ?Ha, ?Hb; simpl; now rewrite IH.
Qed.

Lemma removeAll_app_other (l : list QNetworkReply) (n reply : QNetworkReply) :
  reply <> n -> removeAll (l ++ [n]) reply = removeAll l reply ++ [n].
Proof.
  intros Hne. unfold removeAll. rewrite filter_app. simpl.
  destruct (Nat.eqb_spec reply n); [contradiction | reflexivity].
Qed.

Section EitherOrder.

Variable GetReplyData : QNetworkReply -> QByteArray.
Variable ExtractJsonObj : QByteArray -> QJsonObject.
Variable QLocale_toString : Z -> QString.

Local Abbreviation ScrobbleReplyReceived' :=
  (ScrobbleReplyReceived GetReplyData ExtractJsonObj QLocale_toString).
Local Abbreviation run' := (run GetReplyData ExtractJsonObj QLocale_toString).
Local Abbreviation fields :=
  (completion_fields GetReplyData ExtractJsonObj QLocale_toString).

Lemma run_snoc (evs : list Event) (ev : Event) (st : State) :
  run' (evs ++ [ev]) st
  = step GetReplyData ExtractJsonObj QLocale_toString (run' evs st) ev.
Proof. unfold run. now rewrite fold_left_app. Qed.

(** Two replies in flight complete, [second] after [first]. *)
Lemma two_completions (evs : list Event) (first second : QNetworkReply) :
  let st := run' evs SubsonicScrobbleRequest in
  contains (replies_ st) first = true ->
  contains (replies_ st) second = true ->
  first <> second ->
  let st' := ScrobbleReplyReceived' second (ScrobbleReplyReceived' first st) in
  let started := List.length (firstn 2 (scrobble_requests_queue_ st)) in
  sent st' = sent st ++ map params_of (firstn 2 (scrobble_requests_queue_ st))
  /\ scrobble_requests_queue_ st' = skipn 2 (scrobble_requests_queue_ st)
  /\ scrobble_requests_active_ st' = scrobble_requests_active_ st - 2 + Z.of_nat started
  /\ replies_ st'
     = removeAll (removeAll (replies_ st) first) second ++ seq (next_reply st) started
  /\ next_reply st' = (next_reply st + started)%nat.
Proof.
  intros st H1 H2 Hne st' started. subst st' started.
  assert (HI : Inv st) by apply Inv_run, Inv_init.
  assert (Hlt : (second < next_reply st)%nat).
  { pose proof (inv_fresh _ HI) as Hf. rewrite Forall_forall in Hf.
    apply Hf. now apply contains_In. }
  pose proof (fields evs first H1) as F1. cbv zeta in F1. fold st in F1.
  pose proof (fields (evs ++ [Completion first]) second) as F2. cbv zeta in F2.
  rewrite run_snoc in F2. simpl step in F2. fold st in F2.
  assert (Ha3 : scrobble_requests_queue_ st <> [] ->
                scrobble_requests_active_ st = kMaxConcurrentScrobbleRequests).
  { intros Hq. destruct (saturated_reached GetReplyData ExtractJsonObj
                           QLocale_toString evs) as [Hq'|Ha]; [|exact Ha].
    fold st in Hq'. contradiction. }
  destruct (scrobble_requests_queue_ st) as [|a [|b rest]] eqn:Hq.
  - destruct F1 as (S1 & Q1 & A1 & R1 & N1).
    rewrite Q1, R1 in F2.
    destruct F2 as (S2 & Q2 & A2 & R2 & N2).
    { apply contains_In, removeAll_In. split; [now apply contains_In | congruence]. }
    rewrite S2, S1, Q2, A2, A1, R2, N2, N1. simpl.
    rewrite !app_nil_r, Nat.add_0_r. repeat split. lia.
  - destruct F1 as (S1 & Q1 & A1 & R1 & N1).
    rewrite Q1, R1 in F2.
    destruct F2 as (S2 & Q2 & A2 & R2 & N2).
    { apply contains_In, in_or_app. left. apply removeAll_In.
      split; [now apply contains_In | congruence]. }
    rewrite S2, S1, Q2, A2, A1, R2, N2, N1, (Ha3 ltac:(discriminate)).
    rewrite removeAll_app_other by lia. simpl.
    repeat split. lia.
  - destruct F1 as (S1 & Q1 & A1 & R1 & N1).
    rewrite Q1, R1 in F2.
    destruct F2 as (S2 & Q2 & A2 & R2 & N2).
    { apply contains_In, in_or_app. left. apply removeAll_In.
      split; [now apply contains_In | congruence]. }
    rewrite S2, S1, Q2, A2, R2, N2, N1, (Ha3 ltac:(discriminate)).
    rewrite removeAll_app_other by lia. simpl.
    rewrite <- !app_assoc. repeat split. lia.
Qed.

(** X16.  On an object reached by any events, two different replies in
    flight may complete in either order: the two orders send the same
    requests, in the same order, and leave the same queue, the same counter
    and the same replies in [replies_]. *)
Theorem completions_commute (evs : list Event) (r1 r2 : QNetworkReply) :
  let st := run' evs SubsonicScrobbleRequest in
  contains (replies_ st) r1 = true ->
  contains (replies_ st) r2 = true ->
  r1 <> r2 ->
  let a := ScrobbleReplyReceived' r2 (ScrobbleReplyReceived' r1 st) in
  let b := ScrobbleReplyReceived' r1 (ScrobbleReplyReceived' r2 st) in
  sent a = sent b
  /\ scrobble_requests_queue_ a = scrobble_requests_queue_ b
  /\ scrobble_requests_active_ a = scrobble_requests_active_ b
  /\ replies_ a = replies_ b
  /\ next_reply a = next_reply b.
Proof.
  intros st H1 H2 Hne a b.
  destruct (two_completions evs r1 r2 H1 H2 Hne) as (Sa & Qa & Aa & Ra & Na).
  destruct (two_completions evs r2 r1 H2 H1 (not_eq_sym Hne)) as (Sb & Qb & Ab & Rb & Nb).
  fold st in Sa, Qa, Aa, Ra, Na, Sb, Qb, Ab, Rb, Nb.
  fold a in Sa, Qa, Aa, Ra, Na. fold b in Sb, Qb, Ab, Rb, Nb.
  rewrite Sa, Sb, Qa, Qb, Aa, Ab, Ra, Rb, Na, Nb.
  rewrite (removeAll_comm (replies_ st) r1 r2). repeat split.
Qed.

End EitherOrder.

(** ** The further properties at the sample server *)

Lemma submission_below_the_limit_is_sent_at_once_witness :
  let st := one_in_flight "" in
  let st' := CreateScrobbleRequest "s2" false (at_ms 7) st in
  sent st' = sent st ++ [[("id", "s2"); ("submission", "false"); ("time", "7")]]
  /\ scrobble_requests_queue_ st' = []
  /\ replies_ st' = [0%nat; 1%nat].
Proof.
  destruct (submission_below_the_limit_is_sent_at_once
              (answering "") sample_parse QStr.number
              [Submit "song" true (at_ms 0)] "s2" false (at_ms 7))
    as (Hs & Hq & _ & Hr); [reflexivity|].
  split; [exact Hs | split; [exact Hq | exact Hr]].
Defined.

Lemma completion_sends_one_request_if_any_waits_witness :
  let st := sample_run payload_oops (map submit_of sample_requests) in
  let st' := ScrobbleReplyReceived (answering payload_oops) sample_parse QStr.number
               1%nat st in
  sent st' = sent st ++ [[("id", "s2"); ("submission", "true"); ("time", "2000")]]
  /\ replies_ st' = [0%nat; 2%nat; 3%nat].
Proof.
  pose proof (completion_sends_one_request_if_any_waits
                (answering payload_oops) sample_parse QStr.number
                (map submit_of sample_requests) 1%nat eq_refl) as H.
  destruct H as (Hs & _ & _ & Hr).
  split; [exact Hs | exact Hr].
Defined.

Lemma completions_send_every_request_witness :
  let st := sample_run payload_oops (map submit_of sample_requests) in
  let st' := complete_all (answering payload_oops) sample_parse QStr.number
               (fun l => last l 0%nat) 5 st in
  replies_ st' = []
  /\ scrobble_requests_queue_ st' = []
  /\ sent st' = map params_of sample_requests.
Proof.
  destruct (completions_send_every_request
              (answering payload_oops) sample_parse QStr.number
              (fun l => last l 0%nat) (fun l H => last_In l 0%nat H)
              (map submit_of sample_requests))
    as (Hr & Hq & _ & Hs).
  split; [exact Hr | split; [exact Hq | exact Hs]].
Defined.

Lemma parameters_determine_the_request_witness :
  {| song_id := "s1"; submission := false; time_ms := 1000 |}
  = hd {| song_id := ""; submission := false; time_ms := 0 |} sample_requests.
Proof.
  apply parameters_determine_the_request. reflexivity.
Defined.

Lemma completions_commute_witness :
  let st := sample_run payload_oops (map submit_of sample_requests) in
  let a := ScrobbleReplyReceived (answering payload_oops) sample_parse QStr.number 2%nat
             (ScrobbleReplyReceived (answering payload_oops) sample_parse QStr.number
                0%nat st) in
  let b := ScrobbleReplyReceived (answering payload_oops) sample_parse QStr.number 0%nat
             (ScrobbleReplyReceived (answering payload_oops) sample_parse QStr.number
                2%nat st) in
  sent a = sent b /\ replies_ a = replies_ b.
Proof.
  destruct (completions_commute
              (answering payload_oops) sample_parse QStr.number
              (map submit_of sample_requests) 0%nat 2%nat)
    as (Hs & _ & _ & Hr & _); [reflexivity | reflexivity | discriminate |].
  split; [exact Hs | exact Hr].
Defined.

(** ** Error and the flush, function by function *)

(** X17.  Error in any state: a text that is not empty is appended to
    [errors_] and logged, an empty text is neither; a valid debug value is
    logged after it and never reaches [errors_]; and Error ends with the
    queue flushed, empty or with the counter at or above the limit. *)
Theorem Error_records_nonempty_text_and_flushes
    (error : QString) (debug : QVariant) (st : State) :
  let st' := Error error debug st in
  errors_ st' = errors_ st ++ (if QStr.isEmpty error then [] else [error])
  /\ qLog st' = qLog st ++ (if QStr.isEmpty error then [] else [LogError error])
                        ++ match debug with Some d => [LogDebug d] | None => [] end
  /\ (scrobble_requests_queue_ st' = []
      \/ kMaxConcurrentScrobbleRequests <= scrobble_requests_active_ st').
Proof.
  intros st'. subst st'. rewrite Error_reported.
  destruct (errors_FinishCheck (reported error debug st)) as [-> ->].
  rewrite errors_reported, qLog_reported.
  split; [reflexivity | split; [reflexivity | apply FinishCheck_exit]].
Qed.

Lemma flush_count (n : nat) :
  forall st,
    List.length (scrobble_requests_queue_ st) = n ->
    0 <= scrobble_requests_active_ st ->
    let k := Nat.min n
               (Z.to_nat (kMaxConcurrentScrobbleRequests - scrobble_requests_active_ st)) in
    let st' := FlushScrobbleRequests st in
    sent st' = sent st ++ map params_of (firstn k (scrobble_requests_queue_ st))
    /\ scrobble_requests_queue_ st' = skipn k (scrobble_requests_queue_ st)
    /\ scrobble_requests_active_ st' = scrobble_requests_active_ st + Z.of_nat k
    /\ replies_ st' = replies_ st ++ seq (next_reply st) k
    /\ errors_ st' = errors_ st.
Proof.
  unfold kMaxConcurrentScrobbleRequests.
  induction n as [|n IH]; intros st Hlen H0; cbv zeta.
  - destruct (scrobble_requests_queue_ st) eqn:Hq; [|discriminate].
    rewrite FlushScrobbleRequests_stop by now left.
    rewrite Hq. cbn [Nat.min firstn skipn seq map].
    rewrite !app_nil_r, Z.add_0_r. repeat split.
  - destruct (scrobble_requests_queue_ st) as [|request rest] eqn:Hq; [discriminate|].
    injection Hlen as Hlen.
    destruct (Z.ltb_spec (scrobble_requests_active_ st) 3) as [Hlt|Hge].
    + rewrite (FlushScrobbleRequests_cons st request rest Hq Hlt).
      specialize (IH (FlushStep request rest st)). cbv zeta in IH.
      rewrite FlushStep_queue, FlushStep_active, FlushStep_replies, FlushStep_next_reply,
        sent_FlushStep, FlushStep_errors in IH.
      rewrite int_wrap_small in IH by lia.
      destruct IH as (Is & Iq & Ia & Ir & Ie); [assumption | lia |].
      remember (Nat.min n (Z.to_nat (3 - (scrobble_requests_active_ st + 1)))) as k'
        eqn:Hk.
      replace (Nat.min (S n) (Z.to_nat (3 - scrobble_requests_active_ st)))
        with (S k') by (subst k'; lia).
      cbn [firstn skipn seq map]. rewrite Is, Iq, Ia, Ir, Ie, <- !app_assoc.
      cbn [app]. repeat split. lia.
    + rewrite FlushScrobbleRequests_stop
        by (right; unfold kMaxConcurrentScrobbleRequests; lia).
      replace (Z.to_nat (3 - scrobble_requests_active_ st)) with 0%nat by lia.
      rewrite Hq, Nat.min_0_r. cbn [firstn skipn seq map].
      rewrite !app_nil_r, Z.add_0_r. repeat split.
Qed.

(** X18.  FlushScrobbleRequests in any state with a counter that is not
    negative: it sends as many requests as the limit leaves room for, or
    all of the queue if that is less; these are the first requests of the
    queue, sent in order; the rest stays queued in order; the counter goes
    up by the number sent, each request sent gets the next reply handle,
    and [errors_] is untouched. *)
Theorem flush_sends_as_many_as_fit (st : State) :
  0 <= scrobble_requests_active_ st ->
  let k := Nat.min (List.length (scrobble_requests_queue_ st))
             (Z.to_nat (kMaxConcurrentScrobbleRequests - scrobble_requests_active_ st)) in
  let st' := FlushScrobbleRequests st in
  sent st' = sent st ++ map params_of (firstn k (scrobble_requests_queue_ st))
  /\ scrobble_requests_queue_ st' = skipn k (scrobble_requests_queue_ st)
  /\ scrobble_requests_active_ st' = scrobble_requests_active_ st + Z.of_nat k
  /\ replies_ st' = replies_ st ++ seq (next_reply st) k
  /\ errors_ st' = errors_ st.
Proof. intros H0. now apply flush_count. Qed.

Section FromIdle.

Variable GetReplyData : QNetworkReply -> QByteArray.
Variable ExtractJsonObj : QByteArray -> QJsonObject.
Variable QLocale_toString : Z -> QString.

Local Abbreviation run' := (run GetReplyData ExtractJsonObj QLocale_toString).

(** X19.  From an idle state, any number of submissions in a row, none
    included: the first three, or all if there are fewer, are sent at once
    in order; the others wait in order; the counter is the number sent. *)
Theorem submissions_from_idle (st : State) (reqs : list Request) :
  scrobble_requests_active_ st = 0 ->
  scrobble_requests_queue_ st = [] ->
  let st' := run' (map submit_of reqs) st in
  sent st' = sent st ++ map params_of (firstn 3 reqs)
  /\ scrobble_requests_queue_ st' = skipn 3 reqs
  /\ scrobble_requests_active_ st' = Z.of_nat (Nat.min 3 (List.length reqs)).
Proof.
  intros Ha Hq st'. subst st'.
  destruct (Nat.le_gt_cases (List.length reqs) 3) as [Hle|Hgt].
  - destruct (run_submits_below_limit GetReplyData ExtractJsonObj QLocale_toString
                reqs st Hq) as (Q1 & A1 & S1).
    + lia.
    + rewrite Ha. unfold kMaxConcurrentScrobbleRequests. lia.
    + rewrite firstn_all2, skipn_all2 by assumption.
      rewrite Q1, A1, S1, Ha. repeat split. lia.
  - assert (Hf : List.length (firstn 3 reqs) = 3%nat) by (rewrite length_firstn; lia).
    destruct (run_submits_split GetReplyData ExtractJsonObj QLocale_toString
                (firstn 3 reqs) (skipn 3 reqs) st Ha Hq Hf) as (S1 & Q1 & A1).
    rewrite firstn_skipn in S1, Q1, A1.
    rewrite S1, Q1, A1. repeat split. unfold kMaxConcurrentScrobbleRequests. lia.
Qed.

End FromIdle.

Lemma flush_sends_as_many_as_fit_witness :
  let st := set_queue sample_requests (one_in_flight "") in
  let st' := FlushScrobbleRequests st in
  sent st' = sent st ++ map params_of (firstn 2 sample_requests)
  /\ scrobble_requests_queue_ st' = skipn 2 sample_requests
  /\ replies_ st' = [0%nat; 1%nat; 2%nat].
Proof.
  destruct (flush_sends_as_many_as_fit (set_queue sample_requests (one_in_flight "")))
    as (Hs & Hq & _ & Hr & _); [discriminate|].
  split; [exact Hs | split; [exact Hq | exact Hr]].
Defined.

Lemma submissions_from_idle_witness :
  let st' := sample_run "" (map submit_of (firstn 2 sample_requests)) in
  sent st' = map params_of (firstn 2 sample_requests)
  /\ scrobble_requests_queue_ st' = []
  /\ scrobble_requests_active_ st' = 2.
Proof.
  destruct (submissions_from_idle (answering "") sample_parse QStr.number
              SubsonicScrobbleRequest (firstn 2 sample_requests) eq_refl eq_refl)
    as (Hs & Hq & Ha).
  split; [exact Hs | split; [exact Hq | exact Ha]].
Defined.
